(** * The testimonials carousel of js/main.js

    A shallow embedding of the class [TestimonialsCarousel] and of the two
    global wrappers [changeTestimonial] and [currentTestimonial], followed by
    the properties of the carousel state machine.

    The methods mutate three things: the fields of the carousel object, the
    class lists of the DOM nodes it queried, and the host's interval timers.
    All three live in one record, [Page], and every method is a function
    [Page -> Page]. *)

From Stdlib Require Import ZArith Lia.
From stdpp Require Import base decidable option list gmap sets strings.

Local Open Scope Z_scope.

(** ** JavaScript numbers

    The carousel only ever computes with integers, except that [x % 0] is
    [NaN], and [NaN] is absorbing for arithmetic and makes every comparison
    false. *)

Module Js.

Inductive number : Type :=
| Num (z : Z)
| NaN.

Definition add (a b : number) : number :=
  match a, b with
  | Num x, Num y => Num (x + y)
  | _, _ => NaN
  end.

Definition sub (a b : number) : number :=
  match a, b with
  | Num x, Num y => Num (x - y)
  | _, _ => NaN
  end.

(** [a % b]: the remainder carries the sign of the dividend. *)
Definition rem (a b : number) : number :=
  match a, b with
  | Num x, Num y => if y =? 0 then NaN else Num (Z.rem x y)
  | _, _ => NaN
  end.

Definition abs (a : number) : number :=
  match a with
  | Num x => Num (Z.abs x)
  | NaN => NaN
  end.

Definition lt (a b : number) : bool :=
  match a, b with
  | Num x, Num y => x <? y
  | _, _ => false
  end.

Definition gt (a b : number) : bool := lt b a.

Definition ge (a b : number) : bool :=
  match a, b with
  | Num x, Num y => y <=? x
  | _, _ => false
  end.

(** [list[i]] on a NodeList: [undefined] unless [i] is an index in range. *)
Definition item {A} (l : list A) (i : number) : option A :=
  match i with
  | Num z => if z <? 0 then None else l !! Z.to_nat z
  | NaN => None
  end.

End Js.

Import Js.

(** ** The page state *)

Record Page : Type := mkPage {
  (* DOM, as queried by the constructor; a node is [true] when its class
     list holds 'active' *)
  container : bool;
  cards : list bool;
  dots : list bool;
  prevBtn : bool;
  nextBtn : bool;
  (* whether setupEventListeners has attached the handlers *)
  listening : bool;
  (* fields of the carousel object *)
  currentIndex : number;
  isAutoplay : bool;
  autoplayTimer : option positive;
  (* the host's interval timers created by this carousel, and the next
     handle setInterval will hand out *)
  live : gset positive;
  nextId : positive;
  (* instrumentation, not in the source: the indices for which
     showTestimonial went past its guard, oldest first *)
  renderLog : list number
}.

Definition with_dom (cs ds : list bool) (p : Page) : Page :=
  mkPage (container p) cs ds (prevBtn p) (nextBtn p) (listening p)
         (currentIndex p) (isAutoplay p) (autoplayTimer p)
         (live p) (nextId p) (renderLog p).

Definition with_listening (b : bool) (p : Page) : Page :=
  mkPage (container p) (cards p) (dots p) (prevBtn p) (nextBtn p) b
         (currentIndex p) (isAutoplay p) (autoplayTimer p)
         (live p) (nextId p) (renderLog p).

Definition with_currentIndex (i : number) (p : Page) : Page :=
  mkPage (container p) (cards p) (dots p) (prevBtn p) (nextBtn p) (listening p)
         i (isAutoplay p) (autoplayTimer p)
         (live p) (nextId p) (renderLog p).

Definition with_autoplayTimer (t : option positive) (p : Page) : Page :=
  mkPage (container p) (cards p) (dots p) (prevBtn p) (nextBtn p) (listening p)
         (currentIndex p) (isAutoplay p) t
         (live p) (nextId p) (renderLog p).

Definition with_timers (l : gset positive) (n : positive) (p : Page) : Page :=
  mkPage (container p) (cards p) (dots p) (prevBtn p) (nextBtn p) (listening p)
         (currentIndex p) (isAutoplay p) (autoplayTimer p)
         l n (renderLog p).

Definition with_renderLog (r : list number) (p : Page) : Page :=
  mkPage (container p) (cards p) (dots p) (prevBtn p) (nextBtn p) (listening p)
         (currentIndex p) (isAutoplay p) (autoplayTimer p)
         (live p) (nextId p) r.

(** ** Host primitives *)

Definition setInterval (p : Page) : positive * Page :=
  (nextId p, with_timers ({[nextId p]} ∪ live p) (Pos.succ (nextId p)) p).

Definition clearInterval (h : positive) (p : Page) : Page :=
  with_timers (live p ∖ {[h]}) (nextId p) p.

(** [nodes.forEach(n => n.classList.remove('active'))] *)
Definition removeActiveAll (nodes : list bool) : list bool :=
  (λ _, false) <$> nodes.

(** [if (nodes[index]) nodes[index].classList.add('active')] *)
Definition addActive (index : number) (nodes : list bool) : list bool :=
  match index, item nodes index with
  | Num z, Some _ => <[Z.to_nat z := true]> nodes
  | _, _ => nodes
  end.

Arguments addActive : simpl never.

(** ** Methods of TestimonialsCarousel *)

Definition startAutoplay (p : Page) : Page :=
  if negb (isAutoplay p) then p
  else let '(h, p') := setInterval p in with_autoplayTimer (Some h) p'.

Definition pauseAutoplay (p : Page) : Page :=
  match autoplayTimer p with
  | Some h => with_autoplayTimer None (clearInterval h p)
  | None => p
  end.

Definition resetAutoplay (p : Page) : Page :=
  startAutoplay (pauseAutoplay p).

Definition cardCount (p : Page) : number := Num (Z.of_nat (length (cards p))).

Definition showTestimonial (index : number) (p : Page) : Page :=
  if lt index (Num 0) || ge index (cardCount p) then p
  else
    let cs := addActive index (removeActiveAll (cards p)) in
    let ds := addActive index (removeActiveAll (dots p)) in
    with_currentIndex index
      (with_renderLog (renderLog p ++ [index]) (with_dom cs ds p)).

Definition nextTestimonial (p : Page) : Page :=
  let nextIndex := rem (add (currentIndex p) (Num 1)) (cardCount p) in
  resetAutoplay (showTestimonial nextIndex p).

Definition previousTestimonial (p : Page) : Page :=
  let prevIndex :=
    rem (add (sub (currentIndex p) (Num 1)) (cardCount p)) (cardCount p) in
  resetAutoplay (showTestimonial prevIndex p).

Definition goToTestimonial (index : number) (p : Page) : Page :=
  resetAutoplay (showTestimonial index p).

Definition handleSwipe (startX endX : Z) (p : Page) : Page :=
  let threshold := Num 50 in
  let diff := sub (Num startX) (Num endX) in
  if gt (abs diff) threshold then
    if gt diff (Num 0) then nextTestimonial p else previousTestimonial p
  else p.

Definition setupEventListeners (p : Page) : Page := with_listening true p.

Definition init (p : Page) : Page :=
  if negb (container p) || (length (cards p) =? 0)%nat then p
  else showTestimonial (Num 0) (startAutoplay (setupEventListeners p)).

(** [new TestimonialsCarousel()] on a page whose queries gave the container
    (or null), the cards, the dots and the two buttons (or null), with
    [CONFIG.testimonialAutoplay = autoplay]. *)
Definition newCarousel (autoplay hasContainer : bool) (cs ds : list bool)
    (hasPrev hasNext : bool) : Page :=
  init (mkPage hasContainer cs ds hasPrev hasNext false
               (Num 0) autoplay None ∅ 1%positive []).

(** ** The global wrappers for inline handlers

    [window.testimonialsCarousel] is [None] when no carousel was registered. *)

Definition changeTestimonial (direction : number) (win : option Page)
    : option Page :=
  match win with
  | Some c => Some (if gt direction (Num 0) then nextTestimonial c
                    else previousTestimonial c)
  | None => None
  end.

Definition currentTestimonial (index : number) (win : option Page)
    : option Page :=
  match win with
  | Some c => Some (goToTestimonial (sub index (Num 1)) c)
  | None => None
  end.

(** ** Events

    What the host can deliver to a constructed carousel: the handlers
    attached by setupEventListeners (only once it has run, and only on nodes
    that exist), the callback of a live interval timer, and the inline
    handlers, which take integer arguments. *)

Inductive event : Type :=
| ClickPrev
| ClickNext
| ClickDot (i : nat)
| MouseEnter
| MouseLeave
| Touch (startX endX : Z)
| Tick (h : positive)
| InlineChange (direction : Z)
| InlineCurrent (index : Z).

Definition onTimerTick (h : positive) (p : Page) : Page :=
  if decide (h ∈ live p) then nextTestimonial p else p.

Definition step (e : event) (p : Page) : Page :=
  match e with
  | ClickPrev =>
      if listening p && prevBtn p then previousTestimonial p else p
  | ClickNext =>
      if listening p && nextBtn p then nextTestimonial p else p
  | ClickDot i =>
      if listening p && (i <? length (dots p))%nat
      then goToTestimonial (Num (Z.of_nat i)) p else p
  | MouseEnter => if listening p then pauseAutoplay p else p
  | MouseLeave => if listening p then startAutoplay p else p
  | Touch startX endX => if listening p then handleSwipe startX endX p else p
  | Tick h => onTimerTick h p
  | InlineChange d => default p (changeTestimonial (Num d) (Some p))
  | InlineCurrent i => default p (currentTestimonial (Num i) (Some p))
  end.

Definition run (es : list event) (p : Page) : Page :=
  foldl (λ q e, step e q) p es.

Inductive reachable (p0 : Page) : Page → Prop :=
| reach_start : reachable p0 p0
| reach_step e p : reachable p0 p → reachable p0 (step e p).

(** Positions of the nodes that carry 'active'. *)
Fixpoint activeFrom (k : nat) (nodes : list bool) : list nat :=
  match nodes with
  | [] => []
  | b :: rest => (if b then [k] else []) ++ activeFrom (S k) rest
  end.

Definition activeItems (nodes : list bool) : list nat := activeFrom 0 nodes.

(** ** Predicates on pages *)

(** The index is an integer within the cards. *)
Definition indexInRange (p : Page) : Prop :=
  ∃ i, currentIndex p = Num i ∧ 0 ≤ i < Z.of_nat (length (cards p)).

(** The timer the carousel holds a handle to, as a set. *)
Definition held (p : Page) : gset positive :=
  match autoplayTimer p with
  | Some t => {[t]}
  | None => ∅
  end.

(** Handles are handed out in increasing order, so the next one is neither
    live nor held; and a carousel without autoplay owns no timer. *)
Definition timersOk (p : Page) : Prop :=
  (∀ h, h ∈ live p → (h < nextId p)%positive)
  ∧ (∀ t, autoplayTimer p = Some t → (t < nextId p)%positive)
  ∧ (isAutoplay p = false → live p = ∅).

(** The page used in the examples: [n] cards and as many dots, none marked
    yet, both buttons present. *)
Definition freshCarousel (autoplay : bool) (n : nat) : Page :=
  newCarousel autoplay true (replicate n false) (replicate n false) true true.

(** ** Further predicates on the carousel *)

(** The marks on the page agree with the index: the card at the index is the
    one active card, and so is the dot at the index when there is one. *)
Definition synced (p : Page) : Prop :=
  ∃ i, currentIndex p = Num i
       ∧ 0 ≤ i < Z.of_nat (length (cards p))
       ∧ activeItems (cards p) = [Z.to_nat i]
       ∧ activeItems (dots p)
         = if decide (i < Z.of_nat (length (dots p))) then [Z.to_nat i] else [].

(** The carousel holds no stale handle. *)
Definition heldIsLive (p : Page) : Prop :=
  ∀ t, autoplayTimer p = Some t → t ∈ live p.

(** Timer [h] runs, but the carousel holds no handle to it. *)
Definition leaked (h : positive) (p : Page) : Prop :=
  h ∈ live p ∧ autoplayTimer p ≠ Some h.

(** Along [es], started from [p], every hover-leave arrives while the
    carousel holds no timer (as right after a hover-enter). *)
Fixpoint leaveOnlyWhenPaused (es : list event) (p : Page) : bool :=
  match es with
  | [] => true
  | e :: rest =>
      match e, autoplayTimer p with
      | MouseLeave, Some _ => false
      | _, _ => leaveOnlyWhenPaused rest (step e p)
      end
  end.

(** The events of the listeners that setupEventListeners attaches. *)
Definition isListenerEvent (e : event) : bool :=
  match e with
  | ClickPrev | ClickNext | ClickDot _ | MouseEnter | MouseLeave | Touch _ _ =>
      true
  | Tick _ | InlineChange _ | InlineCurrent _ => false
  end.

(** * The other components of js/main.js

    Each component is a module of its own; their properties follow those of
    the carousel. *)

(** ** FAQAccordion *)

Module Faq.

(** The 'active' flag of every .faq-item, in document order, and (as
    instrumentation) the items for which toggleFAQ scheduled a smooth
    scroll. *)
Record Accordion : Type := mkAccordion {
  faqItems : list bool;
  scrollQueue : list nat
}.

(** [toggleFAQ(item)]: [item] is the position of the element in faqItems,
    and [inViewport] is what isInViewport(item) answers. *)
Definition toggleFAQ (item : nat) (inViewport : bool) (a : Accordion)
    : Accordion :=
  let isActive := default false (faqItems a !! item) in
  let closed := removeActiveAll (faqItems a) in
  mkAccordion
    (if negb isActive then <[item := true]> closed else closed)
    (if negb isActive && negb inViewport
     then scrollQueue a ++ [item] else scrollQueue a).

(** The inline wrapper [toggleFaq(element)]: [closest] is the .faq-item
    around the element, if any, and [win] is window.faqAccordion. *)
Definition toggleFaq (closest : option nat) (inViewport : bool)
    (win : option Accordion) : option Accordion :=
  match closest, win with
  | Some item, Some a => Some (toggleFAQ item inViewport a)
  | _, _ => win
  end.

End Faq.

(** ** ProductsFilter *)

Module Filter.

(** [card.style.display]: what the style sheet gives until the filter
    writes 'block' or 'none'. *)
Inductive Display : Type :=
| DisplayUnset
| DisplayBlock
| DisplayNone.

Record Card : Type := mkCard {
  cardCategory : string;     (* data-category *)
  display : Display;
  fadeIn : bool              (* class 'fade-in' *)
}.

Record Button : Type := mkButton {
  btnCategory : option string;   (* data-category, or undefined *)
  btnActive : bool               (* class 'active' *)
}.

Record Products : Type := mkProducts {
  filterBtns : list Button;
  productCards : list Card;
  (* #products-grid, if present, and whether its transition was set *)
  grid : option bool;
  (* the cards with an addClassWithAnimation timeout still to fire *)
  pendingFade : list nat;
  (* whether setupEventListeners has run *)
  listening : bool
}.

(** [category === 'all' || cardCategory === category] *)
Definition matches (category : option string) (card : Card) : bool :=
  match category with
  | Some c => bool_decide (c = "all"%string)
              || bool_decide (cardCategory card = c)
  | None => false
  end.

Definition showOrHide (category : option string) (card : Card) : Card :=
  if matches category card
  then mkCard (cardCategory card) DisplayBlock (fadeIn card)
  else mkCard (cardCategory card) DisplayNone (fadeIn card).

(** The positions, from [k] on, of the cards the filter lets through. *)
Fixpoint matchingFrom (k : nat) (category : option string)
    (cards : list Card) : list nat :=
  match cards with
  | [] => []
  | card :: rest =>
      (if matches category card then [k] else [])
      ++ matchingFrom (S k) category rest
  end.

Definition reorderGrid (s : Products) : Products :=
  mkProducts (filterBtns s) (productCards s) ((λ _, true) <$> grid s)
             (pendingFade s) (listening s).

Definition filterProducts (category : option string) (s : Products)
    : Products :=
  reorderGrid
    (mkProducts (filterBtns s)
                (showOrHide category <$> productCards s)
                (grid s)
                (pendingFade s ++ matchingFrom 0 category (productCards s))
                (listening s)).

Definition deactivate (b : Button) : Button := mkButton (btnCategory b) false.

(** [updateActiveFilter(activeBtn)], with the button given by position. *)
Definition updateActiveFilter (activeBtn : nat) (s : Products) : Products :=
  let cleared := deactivate <$> filterBtns s in
  mkProducts
    (match cleared !! activeBtn with
     | Some b => <[activeBtn := mkButton (btnCategory b) true]> cleared
     | None => cleared
     end)
    (productCards s) (grid s) (pendingFade s) (listening s).

Definition init (s : Products) : Products :=
  if (length (filterBtns s) =? 0)%nat || (length (productCards s) =? 0)%nat
  then s
  else mkProducts (filterBtns s) (productCards s) (grid s) (pendingFade s) true.

Definition newProductsFilter (btns : list Button) (cards : list Card)
    (hasGrid : bool) : Products :=
  init (mkProducts btns cards (if hasGrid then Some false else None) [] false).

(** The click listener of button [i]. *)
Definition click (i : nat) (s : Products) : Products :=
  if listening s then
    match filterBtns s !! i with
    | Some btn => updateActiveFilter i (filterProducts (btnCategory btn) s)
    | None => s
    end
  else s.

(** The [k]-th pending timeout fires: its card gets the class 'fade-in'. *)
Definition fire (k : nat) (s : Products) : Products :=
  match pendingFade s !! k with
  | Some c =>
      mkProducts (filterBtns s)
                 (match productCards s !! c with
                  | Some card =>
                      <[c := mkCard (cardCategory card) (display card) true]>
                        (productCards s)
                  | None => productCards s
                  end)
                 (grid s) (delete k (pendingFade s)) (listening s)
  | None => s
  end.

Inductive event : Type :=
| Click (i : nat)
| Fire (k : nat).

Definition step (e : event) (s : Products) : Products :=
  match e with
  | Click i => click i s
  | Fire k => fire k s
  end.

Definition run (es : list event) (s : Products) : Products :=
  foldl (λ q e, step e q) s es.

(** Button [i] is the one active button, and exactly the cards that match
    its category are displayed. *)
Definition agrees (i : nat) (s : Products) : Prop :=
  activeItems (btnActive <$> filterBtns s) = [i]
  ∧ ∃ btn, filterBtns s !! i = Some btn
           ∧ ∀ k card, productCards s !! k = Some card →
               display card = if matches (btnCategory btn) card
                              then DisplayBlock else DisplayNone.

(** The button whose click was the last to be delivered: clicks on
    positions beyond the [n] buttons reach no listener. *)
Definition lastClicked (n : nat) (i : nat) (es : list event) : nat :=
  foldl (λ j e, match e with
                | Click i' => if (i' <? n)%nat then i' else j
                | Fire _ => j
                end) i es.

End Filter.

(** ** ModalManager *)

Module Modal.

(** An element of the document, found by its id. *)
Record Element : Type := mkElement {
  isModal : bool;       (* matched '.modal' when the manager was built *)
  show : bool;          (* class 'show' *)
  hasCloseBtn : bool;   (* has a '.modal-close' inside *)
  focusables : nat;     (* how many focusable elements it contains *)
  tabTraps : nat        (* keydown listeners added to it by trapFocus *)
}.

Record Page : Type := mkPage {
  elements : gmap string Element;
  bodyOverflowHidden : bool;     (* body.style.overflow is 'hidden', else '' *)
  activeModal : option string;
  (* instrumentation: the modals whose first focusable element was sent
     focus(), oldest first *)
  focusCalls : list string
}.

Definition withShow (b : bool) (e : Element) : Element :=
  mkElement (isModal e) b (hasCloseBtn e) (focusables e) (tabTraps e).

(** [trapFocus(modal)]: with nothing focusable it returns at once; otherwise
    it focuses the first focusable element and adds one more keydown
    listener to the modal. *)
Definition trapFocus (modal : string) (p : Page) : Page :=
  match elements p !! modal with
  | Some e =>
      if (focusables e =? 0)%nat then p
      else mkPage
             (<[modal := mkElement (isModal e) (show e) (hasCloseBtn e)
                                   (focusables e) (S (tabTraps e))]>
                (elements p))
             (bodyOverflowHidden p) (activeModal p)
             (focusCalls p ++ [modal])
  | None => p
  end.

Definition openModal (modalId : string) (p : Page) : Page :=
  match elements p !! modalId with
  | None => p
  | Some e =>
      trapFocus modalId
        (mkPage (<[modalId := withShow true e]> (elements p))
                true (Some modalId) (focusCalls p))
  end.

(** [closeModal(modal)]: [modal] is the element, or null. *)
Definition closeModal (modal : option string) (p : Page) : Page :=
  match modal with
  | None => p
  | Some m =>
      mkPage (match elements p !! m with
              | Some e => <[m := withShow false e]> (elements p)
              | None => elements p
              end)
             false None (focusCalls p)
  end.

(** [document.getElementById(id)] *)
Definition getElementById (id : string) (p : Page) : option string :=
  match elements p !! id with
  | Some _ => Some id
  | None => None
  end.

(** The global wrappers; [registered] tells whether window.modalManager is
    set. *)
Definition closeQuickView (registered : bool) (p : Page) : Page :=
  match getElementById "quickViewModal" p with
  | Some m => if registered then closeModal (Some m) p else p
  | None => p
  end.

Definition closeSuccessModal (registered : bool) (p : Page) : Page :=
  match getElementById "successModal" p with
  | Some m => if registered then closeModal (Some m) p else p
  | None => p
  end.

(** The listeners of setupEventListeners, and calls of openModal. *)
Inductive event : Type :=
| KeyEscape
| BackdropClick (modal : string)
| CloseBtnClick (modal : string)
| Open (modalId : string)
| CloseQuickView
| CloseSuccessModal.

Definition onEscape (p : Page) : Page :=
  match activeModal p with
  | Some m => closeModal (Some m) p
  | None => p
  end.

Definition step (e : event) (p : Page) : Page :=
  match e with
  | KeyEscape => onEscape p
  | BackdropClick m =>
      match elements p !! m with
      | Some el => if isModal el then closeModal (Some m) p else p
      | None => p
      end
  | CloseBtnClick m =>
      match elements p !! m with
      | Some el =>
          if isModal el && hasCloseBtn el then closeModal (Some m) p else p
      | None => p
      end
  | Open id => openModal id p
  | CloseQuickView => closeQuickView true p
  | CloseSuccessModal => closeSuccessModal true p
  end.

Definition run (es : list event) (p : Page) : Page :=
  foldl (λ q e, step e q) p es.

(** [new ModalManager()] on a page with the given elements. *)
Definition newModalManager (els : gmap string Element) : Page :=
  mkPage els false None [].

Definition isShown (m : string) (p : Page) : bool :=
  match elements p !! m with
  | Some e => show e
  | None => false
  end.

(** Scrolling is locked exactly while a modal is registered as active, and
    that modal exists and is shown. *)
Definition consistent (p : Page) : Prop :=
  bodyOverflowHidden p = bool_decide (is_Some (activeModal p))
  ∧ ∀ m, activeModal p = Some m → isShown m p = true.

End Modal.

(** ** NavigationManager *)

Module Nav.

(** What the click handler of a nav link can learn from its href. *)
Inductive Href : Type :=
| HrefNone                        (* no href, or an empty one *)
| HrefOther                       (* does not start with '#' *)
| HrefBadSelector                 (* starts with '#', but document.querySelector
                                     rejects it, as it does a bare '#' *)
| HrefAnchor (target : option nat). (* '#...': the element found, or null *)

Record Link : Type := mkLink {
  linkActive : bool;           (* class 'active' *)
  href : Href;
  inMenu : bool;               (* lies inside #nav-menu *)
  slideIn : bool;              (* class 'animate-slide-in' *)
  (* style.animationDelay is index * 0.1 seconds; the index is kept *)
  delayIndex : option nat
}.

Record Section : Type := mkSection {
  offsetTop : Z;
  offsetHeight : Z;
  (* the first .nav-link whose href is '#' + the section's id, by position
     in navLinks *)
  sectionLink : option nat
}.

Record Page : Type := mkPage {
  navbar : option bool;        (* #navbar, and its class 'scrolled' *)
  navToggle : option bool;     (* #nav-toggle, and its class 'active' *)
  navMenu : option bool;       (* #nav-menu, and its class 'active' *)
  navLinks : list Link;
  sections : list Section;     (* section[id], in document order *)
  isMobileMenuOpen : bool;     (* STATE.isMobileMenuOpen *)
  bodyOverflowHidden : bool;   (* body.style.overflow is 'hidden', else '' *)
  menuListeners : bool;        (* handleMobileMenu attached its listeners *)
  (* instrumentation: the targets handed to smoothScrollTo, oldest first *)
  scrollTargets : list nat
}.

(** A handler either runs to its end or stops at a TypeError or
    SyntaxError; what it wrote before stays written. *)
Inductive outcome : Type :=
| Done (p : Page)
| Threw (p : Page).

Definition page (o : outcome) : Page :=
  match o with
  | Done p => p
  | Threw p => p
  end.

Definition andThen (o : outcome) (k : Page → outcome) : outcome :=
  match o with
  | Done p => k p
  | Threw p => Threw p
  end.

Definition withOpen (b : bool) (p : Page) : Page :=
  mkPage (navbar p) (navToggle p) (navMenu p) (navLinks p) (sections p)
         b (bodyOverflowHidden p) (menuListeners p) (scrollTargets p).

Definition withToggle (t : option bool) (p : Page) : Page :=
  mkPage (navbar p) t (navMenu p) (navLinks p) (sections p)
         (isMobileMenuOpen p) (bodyOverflowHidden p) (menuListeners p)
         (scrollTargets p).

Definition withMenu (m : option bool) (p : Page) : Page :=
  mkPage (navbar p) (navToggle p) m (navLinks p) (sections p)
         (isMobileMenuOpen p) (bodyOverflowHidden p) (menuListeners p)
         (scrollTargets p).

Definition withOverflow (b : bool) (p : Page) : Page :=
  mkPage (navbar p) (navToggle p) (navMenu p) (navLinks p) (sections p)
         (isMobileMenuOpen p) b (menuListeners p) (scrollTargets p).

Definition withLinks (l : list Link) (p : Page) : Page :=
  mkPage (navbar p) (navToggle p) (navMenu p) l (sections p)
         (isMobileMenuOpen p) (bodyOverflowHidden p) (menuListeners p)
         (scrollTargets p).

Definition withNavbar (n : option bool) (p : Page) : Page :=
  mkPage n (navToggle p) (navMenu p) (navLinks p) (sections p)
         (isMobileMenuOpen p) (bodyOverflowHidden p) (menuListeners p)
         (scrollTargets p).

Definition withMenuListeners (b : bool) (p : Page) : Page :=
  mkPage (navbar p) (navToggle p) (navMenu p) (navLinks p) (sections p)
         (isMobileMenuOpen p) (bodyOverflowHidden p) b (scrollTargets p).

Definition withScrollTargets (l : list nat) (p : Page) : Page :=
  mkPage (navbar p) (navToggle p) (navMenu p) (navLinks p) (sections p)
         (isMobileMenuOpen p) (bodyOverflowHidden p) (menuListeners p) l.

(** [smoothScrollTo(target)] with an element: the scroll is requested. *)
Definition smoothScrollTo (target : nat) (p : Page) : Page :=
  withScrollTargets (scrollTargets p ++ [target]) p.

Definition closeMobileMenu (p : Page) : outcome :=
  let p1 := withOpen false p in
  match navToggle p1 with
  | None => Threw p1
  | Some _ =>
      let p2 := withToggle (Some false) p1 in
      match navMenu p2 with
      | None => Threw p2
      | Some _ => Done (withOverflow false (withMenu (Some false) p2))
      end
  end.

(** The links inside the menu get their delay and the class, numbered in
    document order among themselves. *)
Fixpoint slideInFrom (k : nat) (links : list Link) : list Link :=
  match links with
  | [] => []
  | l :: rest =>
      if inMenu l
      then mkLink (linkActive l) (href l) (inMenu l) true (Some k)
           :: slideInFrom (S k) rest
      else l :: slideInFrom k rest
  end.

Definition animateMenuItems (p : Page) : outcome :=
  match navMenu p with
  | None => Threw p
  | Some _ => Done (withLinks (slideInFrom 0 (navLinks p)) p)
  end.

Definition toggleMobileMenu (p : Page) : outcome :=
  let p1 := withOpen (negb (isMobileMenuOpen p)) p in
  match navToggle p1 with
  | None => Threw p1
  | Some t =>
      let p2 := withToggle (Some (negb t)) p1 in
      match navMenu p2 with
      | None => Threw p2
      | Some m =>
          let p3 := withOverflow (isMobileMenuOpen p2)
                      (withMenu (Some (negb m)) p2) in
          if isMobileMenuOpen p3 then animateMenuItems p3 else Done p3
      end
  end.

Definition clearActive (l : Link) : Link :=
  mkLink false (href l) (inMenu l) (slideIn l) (delayIndex l).

Definition markActive (l : Link) : Link :=
  mkLink true (href l) (inMenu l) (slideIn l) (delayIndex l).

(** [setActiveLink(activeLink)], the link given by its position. *)
Definition setActiveLink (activeLink : nat) (p : Page) : Page :=
  let cleared := clearActive <$> navLinks p in
  withLinks (match cleared !! activeLink with
             | Some l => <[activeLink := markActive l]> cleared
             | None => cleared
             end) p.

Definition contains (scrollPos : Z) (s : Section) : bool :=
  (offsetTop s <=? scrollPos) && (scrollPos <=? offsetTop s + offsetHeight s).

(** [updateActiveLink()], at [window.pageYOffset = scrollY]. *)
Definition updateActiveLink (scrollY : Z) (p : Page) : Page :=
  let scrollPos := scrollY + 100 in
  foldl (λ q s,
           if contains scrollPos s then
             match sectionLink s with
             | Some link => setActiveLink link q
             | None => q
             end
           else q)
        p (sections p).

(** [handleScroll()]; CONFIG.scrollThreshold is 100. *)
Definition handleScroll (scrollY : Z) (p : Page) : Page :=
  match navbar p with
  | None => p
  | Some _ => updateActiveLink scrollY (withNavbar (Some (100 <? scrollY)) p)
  end.

Definition handleMobileMenu (p : Page) : Page :=
  match navToggle p, navMenu p with
  | Some _, Some _ => withMenuListeners true p
  | _, _ => p
  end.

Definition handleResize (innerWidth : Z) (p : Page) : outcome :=
  if (768 <=? innerWidth) && isMobileMenuOpen p then closeMobileMenu p
  else Done p.

(** The click listener that handleNavLinkClicks puts on link [i]. *)
Definition linkClick (l : Link) (i : nat) (p : Page) : outcome :=
  andThen
    (match href l with
     | HrefNone | HrefOther => Done p
     | HrefBadSelector => Threw p
     | HrefAnchor None => Done p
     | HrefAnchor (Some target) =>
         andThen (closeMobileMenu (smoothScrollTo target p))
                 (λ q, Done (setActiveLink i q))
     end)
    (λ q, if isMobileMenuOpen q then closeMobileMenu q else Done q).

(** The document listeners of handleMobileMenu. *)
Definition documentClick (insideNavbar : bool) (p : Page) : outcome :=
  match navbar p with
  | None => Threw p
  | Some _ =>
      if negb insideNavbar && isMobileMenuOpen p then closeMobileMenu p
      else Done p
  end.

Definition keyEscape (p : Page) : outcome :=
  if isMobileMenuOpen p then closeMobileMenu p else Done p.

(** [init()], at [window.pageYOffset = scrollY]. *)
Definition init (scrollY : Z) (p : Page) : Page :=
  updateActiveLink scrollY (handleMobileMenu (handleScroll scrollY p)).

Inductive event : Type :=
| ToggleClick
| DocumentClick (insideNavbar : bool)
| KeyEscape
| LinkClick (i : nat)
| Scroll (scrollY : Z)
| Resize (innerWidth : Z).

Definition step (e : event) (p : Page) : Page :=
  match e with
  | ToggleClick =>
      if menuListeners p then page (toggleMobileMenu p) else p
  | DocumentClick inside =>
      if menuListeners p then page (documentClick inside p) else p
  | KeyEscape =>
      if menuListeners p then page (keyEscape p) else p
  | LinkClick i =>
      match navLinks p !! i with
      | Some l => page (linkClick l i p)
      | None => p
      end
  | Scroll y => handleScroll y p
  | Resize w => page (handleResize w p)
  end.

Definition run (es : list event) (p : Page) : Page :=
  foldl (λ q e, step e q) p es.

(** The two menu classes and the scroll lock say what the flag says. *)
Definition menuSynced (p : Page) : Prop :=
  navToggle p = Some (isMobileMenuOpen p)
  ∧ navMenu p = Some (isMobileMenuOpen p)
  ∧ bodyOverflowHidden p = isMobileMenuOpen p.

(** The links of the sections that contain [scrollPos], in document
    order. *)
Definition hits (scrollPos : Z) (secs : list Section) : list nat :=
  omap (λ s, if contains scrollPos s then sectionLink s else None) secs.

(** What the mobile menu consists of. *)
Definition menuState (p : Page) : option bool * option bool * bool * bool :=
  (navToggle p, navMenu p, isMobileMenuOpen p, bodyOverflowHidden p).

(** A page as the constructor finds it: menu closed, nothing requested. *)
Definition closedPage (hasNavbar : bool) (links : list Link)
    (secs : list Section) : Page :=
  mkPage (if hasNavbar then Some false else None) (Some false) (Some false)
         links secs false false false [].

End Nav.

(** ** debounce and throttle

    The wrapped function is only observed through the arguments it is
    invoked with, which are logged in [calls]. *)

Module Debounce.

Record State (A : Type) : Type := mkState {
  timeout : option positive;   (* the closure variable [timeout] *)
  (* the timeouts set and neither fired nor cleared, each with the arguments
     its [later] closure will pass on *)
  pending : gmap positive A;
  nextId : positive;           (* the next handle setTimeout returns *)
  calls : list A               (* the invocations of func, oldest first *)
}.

Arguments mkState {A}.
Arguments timeout {A}.
Arguments pending {A}.
Arguments nextId {A}.
Arguments calls {A}.

(** [debounce(func, wait)]: nothing is scheduled yet. *)
Definition debounce {A} : State A := mkState None ∅ 1%positive [].

(** [clearTimeout(timeout)]; clearing undefined does nothing. *)
Definition clearTimeout {A} (h : option positive) (s : State A) : State A :=
  match h with
  | Some t => mkState (timeout s) (delete t (pending s)) (nextId s) (calls s)
  | None => s
  end.

Definition executedFunction {A} (args : A) (s : State A) : State A :=
  let s1 := clearTimeout (timeout s) s in
  mkState (Some (nextId s1)) (<[nextId s1 := args]> (pending s1))
          (Pos.succ (nextId s1)) (calls s1).

(** Timeout [h] fires: the host forgets it and runs [later]. *)
Definition fire {A} (h : positive) (s : State A) : State A :=
  match pending s !! h with
  | Some args =>
      let s1 := clearTimeout (timeout s)
                  (mkState (timeout s) (delete h (pending s)) (nextId s)
                           (calls s)) in
      mkState (timeout s1) (pending s1) (nextId s1) (calls s1 ++ [args])
  | None => s
  end.

Inductive event (A : Type) : Type :=
| Call (args : A)
| Fire (h : positive).

Arguments Call {A}.
Arguments Fire {A}.

Definition step {A} (e : event A) (s : State A) : State A :=
  match e with
  | Call args => executedFunction args s
  | Fire h => fire h s
  end.

Definition run {A} (es : list (event A)) (s : State A) : State A :=
  foldl (λ q e, step e q) s es.

(** Whatever is pending is the timeout in the closure variable. *)
Definition onlyLatest {A} (s : State A) : Prop :=
  ∀ h a, pending s !! h = Some a → timeout s = Some h.

End Debounce.

Module Throttle.

Record State (A : Type) : Type := mkState {
  inThrottle : bool;           (* the closure variable; undefined is false *)
  resets : gset positive;      (* the timeouts that will clear inThrottle *)
  nextId : positive;
  calls : list A               (* the invocations of func, oldest first *)
}.

Arguments mkState {A}.
Arguments inThrottle {A}.
Arguments resets {A}.
Arguments nextId {A}.
Arguments calls {A}.

Definition throttle {A} : State A := mkState false ∅ 1%positive [].

(** A call of the function throttle returns. *)
Definition call {A} (args : A) (s : State A) : State A :=
  if inThrottle s then s
  else mkState true ({[nextId s]} ∪ resets s) (Pos.succ (nextId s))
               (calls s ++ [args]).

(** Timeout [h] fires and clears the flag. *)
Definition fire {A} (h : positive) (s : State A) : State A :=
  if decide (h ∈ resets s)
  then mkState false (resets s ∖ {[h]}) (nextId s) (calls s)
  else s.

Inductive event (A : Type) : Type :=
| Call (args : A)
| Fire (h : positive).

Arguments Call {A}.
Arguments Fire {A}.

Definition step {A} (e : event A) (s : State A) : State A :=
  match e with
  | Call args => call args s
  | Fire h => fire h s
  end.

Definition run {A} (es : list (event A)) (s : State A) : State A :=
  foldl (λ q e, step e q) s es.

(** The flag is set exactly while the one reset timeout is pending. *)
Definition oneReset {A} (s : State A) : Prop :=
  (inThrottle s = false → resets s = ∅)
  ∧ (inThrottle s = true → ∃ h, resets s = {[h]})
  ∧ ∀ h, h ∈ resets s → (h < nextId s)%positive.

End Throttle.

(** ** StatisticsCounter *)

Module Stats.

(** A timeout set by animateCounters: its delay in milliseconds, and the
    counter and target it will hand to animateCounter. *)
Record Timeout : Type := mkTimeout {
  delay : Z;
  counter : nat;
  target : number
}.

Record State : Type := mkState {
  (* parseInt(counter.dataset.target) of each counter, in document order *)
  counters : list number;
  hasAnimated : bool;
  observing : bool;             (* the observer watches counters[0] *)
  scheduled : list Timeout      (* the timeouts set so far, oldest first *)
}.

Definition batchFrom (k : nat) (targets : list number) : list Timeout :=
  imap (λ index t, mkTimeout (Z.of_nat (k + index) * 200) (k + index) t)
       targets.

Definition animateCounters (s : State) : State :=
  mkState (counters s) (hasAnimated s) (observing s)
          (scheduled s ++ batchFrom 0 (counters s)).

(** The observer's callback, for one entry. *)
Definition onEntry (s : State) (isIntersecting : bool) : State :=
  if isIntersecting && negb (hasAnimated s) then
    let s1 := animateCounters s in
    mkState (counters s1) true false (scheduled s1)
  else s.

(** The host delivers a batch of entries, if the observer is connected. *)
Definition callback (entries : list bool) (s : State) : State :=
  if observing s then foldl onEntry s entries else s.

Definition init (s : State) : State :=
  if (length (counters s) =? 0)%nat then s
  else mkState (counters s) (hasAnimated s) true (scheduled s).

Definition newStatisticsCounter (targets : list number) : State :=
  init (mkState targets false false []).

Definition run (batches : list (list bool)) (s : State) : State :=
  foldl (λ q entries, callback entries q) s batches.

(** Nothing has run yet, or the one animation has and the observer is
    gone. *)
Definition atMostOnce (s : State) : Prop :=
  (hasAnimated s = false ∧ scheduled s = [])
  ∨ (hasAnimated s = true ∧ observing s = false
     ∧ scheduled s = batchFrom 0 (counters s)).

End Stats.

(** ** FormManager: the two regular expressions

    A string is the list of its UTF-16 code units. Neither pattern has
    flags, groups or look-around, and both are anchored at both ends, so
    [regex.test(s)] holds exactly when the whole of [s] is in the language of
    the pattern between [^] and [$]. *)

Module Re.

Inductive regex : Type :=
| Void
| Eps
| Class (p : N → bool)
| Cat (r1 r2 : regex)
| Alt (r1 r2 : regex)
| Star (r : regex).

(** [r+], [r?] and [r{n,}] *)
Definition Plus (r : regex) : regex := Cat r (Star r).

Definition Opt (r : regex) : regex := Alt r Eps.

Fixpoint AtLeast (n : nat) (r : regex) : regex :=
  match n with
  | O => Star r
  | S n' => Cat r (AtLeast n' r)
  end.

Inductive lang : regex → list N → Prop :=
| lang_eps : lang Eps []
| lang_class p c : p c = true → lang (Class p) [c]
| lang_cat r1 r2 s1 s2 :
    lang r1 s1 → lang r2 s2 → lang (Cat r1 r2) (s1 ++ s2)
| lang_alt_l r1 r2 s : lang r1 s → lang (Alt r1 r2) s
| lang_alt_r r1 r2 s : lang r2 s → lang (Alt r1 r2) s
| lang_star_nil r : lang (Star r) []
| lang_star_cons r s1 s2 :
    lang r s1 → lang (Star r) s2 → lang (Star r) (s1 ++ s2).

Fixpoint nullable (r : regex) : bool :=
  match r with
  | Void => false
  | Eps => true
  | Class _ => false
  | Cat r1 r2 => nullable r1 && nullable r2
  | Alt r1 r2 => nullable r1 || nullable r2
  | Star _ => true
  end.

Fixpoint deriv (c : N) (r : regex) : regex :=
  match r with
  | Void => Void
  | Eps => Void
  | Class p => if p c then Eps else Void
  | Cat r1 r2 =>
      if nullable r1 then Alt (Cat (deriv c r1) r2) (deriv c r2)
      else Cat (deriv c r1) r2
  | Alt r1 r2 => Alt (deriv c r1) (deriv c r2)
  | Star r' => Cat (deriv c r') (Star r')
  end.

(** [/^r$/.test(s)] *)
Fixpoint test (r : regex) (s : list N) : bool :=
  match s with
  | [] => nullable r
  | c :: s' => test (deriv c r) s'
  end.

End Re.

Module Form.

(** [\s], and what trim() strips: tab, LF, VT, FF, CR, space, U+00A0,
    U+1680, U+2000 to U+200A, U+2028, U+2029, U+202F, U+205F, U+3000 and
    U+FEFF. *)
Definition isWhiteSpace (c : N) : bool :=
  ((9 <=? c) && (c <=? 13) || (c =? 32) || (c =? 160) || (c =? 5760)
   || (8192 <=? c) && (c <=? 8202) || (c =? 8232) || (c =? 8233)
   || (c =? 8239) || (c =? 8287) || (c =? 12288) || (c =? 65279))%N.

Definition isDigit (c : N) : bool := ((48 <=? c) && (c <=? 57))%N.

Definition AT : N := 64.       (* @ *)
Definition DOT : N := 46.      (* . *)
Definition PLUS : N := 43.     (* + *)
Definition MINUS : N := 45.    (* - *)
Definition LPAREN : N := 40.   (* ( *)
Definition RPAREN : N := 41.   (* ) *)

(** [[^\s@]] *)
Definition notSpaceNorAt (c : N) : bool :=
  negb (isWhiteSpace c || (c =? AT)%N).

(** [[0-9\s\-\(\)]] *)
Definition phoneChar (c : N) : bool :=
  isDigit c || isWhiteSpace c || (c =? MINUS)%N || (c =? LPAREN)%N
  || (c =? RPAREN)%N.

(** CONFIG.emailRegex: [/^[^\s@]+@[^\s@]+\.[^\s@]+$/] *)
Definition emailRegex : Re.regex :=
  Re.Cat (Re.Plus (Re.Class notSpaceNorAt))
    (Re.Cat (Re.Class (N.eqb AT))
       (Re.Cat (Re.Plus (Re.Class notSpaceNorAt))
          (Re.Cat (Re.Class (N.eqb DOT))
             (Re.Plus (Re.Class notSpaceNorAt))))).

(** CONFIG.phoneRegex: [/^[\+]?[0-9\s\-\(\)]{10,}$/] *)
Definition phoneRegex : Re.regex :=
  Re.Cat (Re.Opt (Re.Class (N.eqb PLUS)))
         (Re.AtLeast 10 (Re.Class phoneChar)).

End Form.

(** ** FormManager: fields, groups and submission *)

Module FormDom.

Inductive FieldType : Type :=
| TypeEmail
| TypeTel
| TypeOther.

(** The text of an .error-message element: what the page came with, the
    empty string, or one of the three messages of validateField. *)
Inductive Message : Type :=
| MsgInitial
| MsgEmpty
| MsgRequired
| MsgEmail
| MsgPhone.

Record Group : Type := mkGroup {
  gError : bool;                   (* class 'error' *)
  gSuccess : bool;                 (* class 'success' *)
  gShake : bool;                   (* class 'shake' *)
  errorElement : option Message    (* its .error-message, if any, and the text *)
}.

Record Field : Type := mkField {
  required : bool;                 (* hasAttribute('required') *)
  ftype : FieldType;               (* field.type *)
  value : list N;
  defaultValue : list N;           (* what form.reset() puts back *)
  fieldGroup : option nat          (* closest('.form-group'), by position *)
}.

Record Page : Type := mkPage {
  fields : list Field;             (* input, textarea, select, in order *)
  groups : list Group;             (* the .form-group elements of the form *)
  (* the [type="submit"] button, if any: class 'loading', disabled *)
  submitBtn : option (bool * bool);
  isFormSubmitting : bool;         (* STATE.isFormSubmitting *)
  shakeTimers : list nat;          (* pending 500 ms timeouts, by group *)
  submitTimers : nat;              (* pending 2000 ms timeouts *)
  hasModalManager : bool;          (* window.modalManager is set *)
  (* instrumentation: calls of openModal('successModal') *)
  successModals : nat
}.

Fixpoint trimStart (s : list N) : list N :=
  match s with
  | [] => []
  | c :: rest => if Form.isWhiteSpace c then trimStart rest else s
  end.

(** [s.trim()] *)
Definition trim (s : list N) : list N :=
  reverse (trimStart (reverse (trimStart s))).

(** [!s.trim()] *)
Definition blank (s : list N) : bool :=
  match trim s with
  | [] => true
  | _ :: _ => false
  end.

Definition isEmail (t : FieldType) : bool :=
  match t with TypeEmail => true | _ => false end.

Definition isTel (t : FieldType) : bool :=
  match t with TypeTel => true | _ => false end.

(** The three checks of validateField, in order: the verdict and the
    message left by the last check that failed. *)
Definition verdict (f : Field) : bool * Message :=
  let r1 := if required f && blank (value f)
            then (false, MsgRequired) else (true, MsgEmpty) in
  let r2 := if isEmail (ftype f) && negb (blank (value f))
               && negb (Re.test Form.emailRegex (value f))
            then (false, MsgEmail) else r1 in
  if isTel (ftype f) && negb (blank (value f))
     && negb (Re.test Form.phoneRegex (value f))
  then (false, MsgPhone) else r2.

Definition withGroups (gs : list Group) (ts : list nat) (p : Page) : Page :=
  mkPage (fields p) gs (submitBtn p) (isFormSubmitting p) ts
         (submitTimers p) (hasModalManager p) (successModals p).

Definition withFields (fs : list Field) (p : Page) : Page :=
  mkPage fs (groups p) (submitBtn p) (isFormSubmitting p) (shakeTimers p)
         (submitTimers p) (hasModalManager p) (successModals p).

Definition updateFieldState (fieldGroup : option nat) (isValid : bool)
    (errorMessage : Message) (p : Page) : Page :=
  match fieldGroup with
  | None => p
  | Some g =>
      match groups p !! g with
      | None => p
      | Some grp =>
          if isValid then
            withGroups
              (<[g := mkGroup false true (gShake grp)
                              ((λ _, MsgEmpty) <$> errorElement grp)]>
                 (groups p))
              (shakeTimers p) p
          else
            withGroups
              (<[g := mkGroup true false true
                              ((λ _, errorMessage) <$> errorElement grp)]>
                 (groups p))
              (shakeTimers p ++ [g]) p
      end
  end.

(** [validateField(field)], the field given by position. *)
Definition validateField (i : nat) (p : Page) : bool * Page :=
  match fields p !! i with
  | None => (true, p)
  | Some f =>
      let '(isValid, errorMessage) := verdict f in
      (isValid, updateFieldState (fieldGroup f) isValid errorMessage p)
  end.

Definition clearFieldError (i : nat) (p : Page) : Page :=
  match fields p !! i with
  | Some f =>
      match fieldGroup f with
      | Some g =>
          match groups p !! g with
          | Some grp =>
              withGroups
                (<[g := mkGroup false (gSuccess grp) (gShake grp)
                                (errorElement grp)]> (groups p))
                (shakeTimers p) p
          | None => p
          end
      | None => p
      end
  | None => p
  end.

(** The positions of the fields with the attribute required. *)
Definition requiredFields (p : Page) : list nat :=
  omap (λ '(i, f), if required f then Some i else None)
       (imap (λ i f, (i, f)) (fields p)).

Definition validateForm (p : Page) : bool * Page :=
  foldl (λ '(isFormValid, q) i,
           let '(ok, q') := validateField i q in
           (if ok then isFormValid else false, q'))
        (true, p) (requiredFields p).

Definition handleFormSubmission (p : Page) : Page :=
  if isFormSubmitting p then p
  else
    let '(ok, q) := validateForm p in
    if negb ok then q
    else mkPage (fields q) (groups q) ((λ _, (true, true)) <$> submitBtn q)
                true (shakeTimers q) (S (submitTimers q))
                (hasModalManager q) (successModals q).

Definition resetField (f : Field) : Field :=
  mkField (required f) (ftype f) (defaultValue f) (defaultValue f)
          (fieldGroup f).

Definition clearGroup (g : Group) : Group :=
  mkGroup false false (gShake g) (errorElement g).

Definition handleFormSuccess (p : Page) : Page :=
  mkPage (resetField <$> fields p) (clearGroup <$> groups p) (submitBtn p)
         (isFormSubmitting p) (shakeTimers p) (submitTimers p)
         (hasModalManager p)
         (if hasModalManager p then S (successModals p) else successModals p).

(** A pending 2000 ms timeout fires. *)
Definition submitTimerFires (p : Page) : Page :=
  match submitTimers p with
  | O => p
  | S n =>
      let q := handleFormSuccess p in
      mkPage (fields q) (groups q) ((λ _, (false, false)) <$> submitBtn q)
             false (shakeTimers q) n (hasModalManager q) (successModals q)
  end.

(** The [k]-th pending 500 ms timeout fires: its group loses 'shake'. *)
Definition shakeTimerFires (k : nat) (p : Page) : Page :=
  match shakeTimers p !! k with
  | Some g =>
      withGroups
        (match groups p !! g with
         | Some grp =>
             <[g := mkGroup (gError grp) (gSuccess grp) false
                            (errorElement grp)]> (groups p)
         | None => groups p
         end)
        (delete k (shakeTimers p)) p
  | None => p
  end.

Inductive event : Type :=
| Blur (i : nat)
| Input (i : nat) (newValue : list N)
| Submit
| SubmitTimer
| ShakeTimer (k : nat).

Definition setValue (i : nat) (v : list N) (p : Page) : Page :=
  match fields p !! i with
  | Some f =>
      withFields (<[i := mkField (required f) (ftype f) v (defaultValue f)
                                 (fieldGroup f)]> (fields p)) p
  | None => p
  end.

Definition step (e : event) (p : Page) : Page :=
  match e with
  | Blur i => snd (validateField i p)
  | Input i v => clearFieldError i (setValue i v p)
  | Submit => handleFormSubmission p
  | SubmitTimer => submitTimerFires p
  | ShakeTimer k => shakeTimerFires k p
  end.

Definition run (es : list event) (p : Page) : Page :=
  foldl (λ q e, step e q) p es.

(** A form as the page loads: nothing submitting, no timers. *)
Definition freshForm (fs : list Field) (gs : list Group)
    (btn : option (bool * bool)) (manager : bool) : Page :=
  mkPage fs gs btn false [] 0 manager 0.

(** A submission is under way exactly while its one timeout is pending, and
    the button, if there is one, is then loading and disabled. *)
Definition submitting (p : Page) : Prop :=
  submitTimers p = (if isFormSubmitting p then 1%nat else 0%nat)
  ∧ (isFormSubmitting p = true →
     submitBtn p = None ∨ submitBtn p = Some (true, true)).

(** What validation leaves alone. *)
Definition frame (p q : Page) : Prop :=
  fields q = fields p
  ∧ submitBtn q = submitBtn p
  ∧ isFormSubmitting q = isFormSubmitting p
  ∧ submitTimers q = submitTimers p
  ∧ hasModalManager q = hasModalManager p
  ∧ successModals q = successModals p.

(** validateField's answer for the field at position [i]. *)
Definition validAt (p : Page) (i : nat) : bool :=
  match fields p !! i with
  | Some f => fst (verdict f)
  | None => true
  end.

End FormDom.

(** ** Basic facts about the timer methods

    The timer methods touch nothing but [autoplayTimer], [live] and
    [nextId]. *)

Section TimerFrame.

Variable p : Page.

Lemma resetAutoplay_cards : cards (resetAutoplay p) = cards p.
Proof.
  unfold resetAutoplay, startAutoplay, pauseAutoplay.
  destruct (autoplayTimer p); simpl; destruct (isAutoplay p); reflexivity.
Qed.

Lemma resetAutoplay_dots : dots (resetAutoplay p) = dots p.
Proof.
  unfold resetAutoplay, startAutoplay, pauseAutoplay.
  destruct (autoplayTimer p); simpl; destruct (isAutoplay p); reflexivity.
Qed.

Lemma resetAutoplay_currentIndex :
  currentIndex (resetAutoplay p) = currentIndex p.
Proof.
  unfold resetAutoplay, startAutoplay, pauseAutoplay.
  destruct (autoplayTimer p); simpl; destruct (isAutoplay p); reflexivity.
Qed.

Lemma resetAutoplay_renderLog : renderLog (resetAutoplay p) = renderLog p.
Proof.
  unfold resetAutoplay, startAutoplay, pauseAutoplay.
  destruct (autoplayTimer p); simpl; destruct (isAutoplay p); reflexivity.
Qed.

Lemma resetAutoplay_isAutoplay : isAutoplay (resetAutoplay p) = isAutoplay p.
Proof.
  unfold resetAutoplay, startAutoplay, pauseAutoplay.
  destruct (autoplayTimer p); simpl; destruct (isAutoplay p) eqn:E;
    simpl; congruence.
Qed.

Lemma resetAutoplay_listening : listening (resetAutoplay p) = listening p.
Proof.
  unfold resetAutoplay, startAutoplay, pauseAutoplay.
  destruct (autoplayTimer p); simpl; destruct (isAutoplay p); reflexivity.
Qed.

Lemma startAutoplay_cards : cards (startAutoplay p) = cards p.
Proof. unfold startAutoplay. destruct (isAutoplay p); reflexivity. Qed.

Lemma startAutoplay_dots : dots (startAutoplay p) = dots p.
Proof. unfold startAutoplay. destruct (isAutoplay p); reflexivity. Qed.

Lemma startAutoplay_currentIndex :
  currentIndex (startAutoplay p) = currentIndex p.
Proof. unfold startAutoplay. destruct (isAutoplay p); reflexivity. Qed.

Lemma startAutoplay_renderLog : renderLog (startAutoplay p) = renderLog p.
Proof. unfold startAutoplay. destruct (isAutoplay p); reflexivity. Qed.

Lemma pauseAutoplay_cards : cards (pauseAutoplay p) = cards p.
Proof. unfold pauseAutoplay. destruct (autoplayTimer p); reflexivity. Qed.

Lemma pauseAutoplay_dots : dots (pauseAutoplay p) = dots p.
Proof. unfold pauseAutoplay. destruct (autoplayTimer p); reflexivity. Qed.

Lemma pauseAutoplay_currentIndex :
  currentIndex (pauseAutoplay p) = currentIndex p.
Proof. unfold pauseAutoplay. destruct (autoplayTimer p); reflexivity. Qed.

Lemma pauseAutoplay_renderLog : renderLog (pauseAutoplay p) = renderLog p.
Proof. unfold pauseAutoplay. destruct (autoplayTimer p); reflexivity. Qed.

End TimerFrame.

Create Rewrite HintDb frame.

#[export] Hint Rewrite
  resetAutoplay_cards resetAutoplay_dots resetAutoplay_currentIndex
  resetAutoplay_renderLog resetAutoplay_isAutoplay resetAutoplay_listening
  startAutoplay_cards startAutoplay_dots startAutoplay_currentIndex
  startAutoplay_renderLog
  pauseAutoplay_cards pauseAutoplay_dots pauseAutoplay_currentIndex
  pauseAutoplay_renderLog : frame.

(** ** The render step *)

Lemma showTestimonial_outside (v : Z) (p : Page) :
  v < 0 ∨ Z.of_nat (length (cards p)) ≤ v →
  showTestimonial (Num v) p = p.
Proof.
  intros Hv. unfold showTestimonial, cardCount; simpl.
  destruct (Z.ltb_spec v 0); [reflexivity|].
  destruct (Z.leb_spec (Z.of_nat (length (cards p))) v); [reflexivity|lia].
Qed.

Lemma showTestimonial_inside (v : Z) (p : Page) :
  0 ≤ v < Z.of_nat (length (cards p)) →
  showTestimonial (Num v) p =
    with_currentIndex (Num v)
      (with_renderLog (renderLog p ++ [Num v])
         (with_dom (addActive (Num v) (removeActiveAll (cards p)))
                   (addActive (Num v) (removeActiveAll (dots p))) p)).
Proof.
  intros Hv. unfold showTestimonial, cardCount; simpl.
  destruct (Z.ltb_spec v 0); [lia|].
  destruct (Z.leb_spec (Z.of_nat (length (cards p))) v); [lia|reflexivity].
Qed.

Lemma length_removeActiveAll (nodes : list bool) :
  length (removeActiveAll nodes) = length nodes.
Proof. unfold removeActiveAll. apply length_fmap. Qed.

Lemma length_addActive (index : number) (nodes : list bool) :
  length (addActive index nodes) = length nodes.
Proof.
  unfold addActive.
  destruct index as [z|]; [|reflexivity].
  destruct (item nodes (Num z)); [apply length_insert|reflexivity].
Qed.

Lemma showTestimonial_length_cards (index : number) (p : Page) :
  length (cards (showTestimonial index p)) = length (cards p).
Proof.
  unfold showTestimonial.
  destruct (lt index (Num 0) || ge index (cardCount p)); simpl;
    [reflexivity|].
  now rewrite length_addActive, length_removeActiveAll.
Qed.

Lemma showTestimonial_length_dots (index : number) (p : Page) :
  length (dots (showTestimonial index p)) = length (dots p).
Proof.
  unfold showTestimonial.
  destruct (lt index (Num 0) || ge index (cardCount p)); simpl;
    [reflexivity|].
  now rewrite length_addActive, length_removeActiveAll.
Qed.

Lemma addActive_inside (v : Z) (nodes : list bool) :
  0 ≤ v < Z.of_nat (length nodes) →
  addActive (Num v) nodes = <[Z.to_nat v := true]> nodes.
Proof.
  intros Hv. unfold addActive, item.
  destruct (Z.ltb_spec v 0); [lia|].
  destruct (nodes !! Z.to_nat v) eqn:E; [reflexivity|].
  apply lookup_ge_None in E. lia.
Qed.

Lemma addActive_beyond (v : Z) (nodes : list bool) :
  Z.of_nat (length nodes) ≤ v → addActive (Num v) nodes = nodes.
Proof.
  intros Hv. unfold addActive, item.
  destruct (Z.ltb_spec v 0); [reflexivity|].
  destruct (nodes !! Z.to_nat v) eqn:E; [|reflexivity].
  apply lookup_lt_Some in E. lia.
Qed.

Lemma activeFrom_removeActiveAll (k : nat) (nodes : list bool) :
  activeFrom k (removeActiveAll nodes) = [].
Proof.
  revert k. induction nodes as [|b rest IH]; intros k; simpl; [reflexivity|].
  apply IH.
Qed.

Lemma activeFrom_insert (k i : nat) (nodes : list bool) :
  (i < length nodes)%nat →
  activeFrom k (<[i := true]> (removeActiveAll nodes)) = [(k + i)%nat].
Proof.
  revert k i. induction nodes as [|b rest IH]; intros k i Hi; simpl in *.
  - lia.
  - destruct i as [|i]; simpl.
    + fold (removeActiveAll rest). rewrite activeFrom_removeActiveAll.
      f_equal. lia.
    + fold (removeActiveAll rest). rewrite IH by lia. f_equal. lia.
Qed.

Lemma activeItems_render_inside (v : Z) (nodes : list bool) :
  0 ≤ v < Z.of_nat (length nodes) →
  activeItems (addActive (Num v) (removeActiveAll nodes)) = [Z.to_nat v].
Proof.
  intros Hv. rewrite addActive_inside by (rewrite length_removeActiveAll; lia).
  unfold activeItems. rewrite activeFrom_insert by lia. reflexivity.
Qed.

Lemma activeItems_render_beyond (v : Z) (nodes : list bool) :
  Z.of_nat (length nodes) ≤ v →
  activeItems (addActive (Num v) (removeActiveAll nodes)) = [].
Proof.
  intros Hv. rewrite addActive_beyond by (rewrite length_removeActiveAll; lia).
  apply activeFrom_removeActiveAll.
Qed.

(** ** Where the index moves *)

Lemma next_index (p : Page) (i : Z) :
  0 < Z.of_nat (length (cards p)) →
  currentIndex p = Num i →
  0 ≤ i →
  rem (add (currentIndex p) (Num 1)) (cardCount p)
  = Num ((i + 1) mod Z.of_nat (length (cards p))).
Proof.
  intros HN Hi Hpos. rewrite Hi. unfold cardCount; simpl.
  destruct (Z.eqb_spec (Z.of_nat (length (cards p))) 0); [lia|].
  now rewrite Z.rem_mod_nonneg by lia.
Qed.

Lemma previous_index (p : Page) (i : Z) :
  0 < Z.of_nat (length (cards p)) →
  currentIndex p = Num i →
  0 ≤ i →
  rem (add (sub (currentIndex p) (Num 1)) (cardCount p)) (cardCount p)
  = Num ((i - 1 + Z.of_nat (length (cards p))) mod Z.of_nat (length (cards p))).
Proof.
  intros HN Hi Hpos. rewrite Hi. unfold cardCount; simpl.
  destruct (Z.eqb_spec (Z.of_nat (length (cards p))) 0); [lia|].
  now rewrite Z.rem_mod_nonneg by lia.
Qed.

Lemma showTestimonial_indexInRange (v : Z) (p : Page) :
  indexInRange p → indexInRange (showTestimonial (Num v) p).
Proof.
  intros Hp.
  destruct (Z_lt_ge_dec v 0) as [Hlt|Hge].
  { now rewrite showTestimonial_outside by lia. }
  destruct (Z_lt_ge_dec v (Z.of_nat (length (cards p)))) as [Hin|Hout].
  - exists v. rewrite showTestimonial_length_cards.
    rewrite showTestimonial_inside by lia. simpl. split; [reflexivity|lia].
  - now rewrite showTestimonial_outside by lia.
Qed.

Lemma resetAutoplay_indexInRange (p : Page) :
  indexInRange p → indexInRange (resetAutoplay p).
Proof.
  intros (i & Hi & Hr). exists i. now autorewrite with frame.
Qed.

Lemma goToTestimonial_indexInRange (v : Z) (p : Page) :
  indexInRange p → indexInRange (goToTestimonial (Num v) p).
Proof.
  intros Hp. unfold goToTestimonial.
  now apply resetAutoplay_indexInRange, showTestimonial_indexInRange.
Qed.

Lemma nextTestimonial_indexInRange (p : Page) :
  indexInRange p → indexInRange (nextTestimonial p).
Proof.
  intros Hp. pose proof Hp as (i & Hi & Hr). unfold nextTestimonial.
  rewrite (next_index p i) by (assumption || lia).
  now apply resetAutoplay_indexInRange, showTestimonial_indexInRange.
Qed.

Lemma previousTestimonial_indexInRange (p : Page) :
  indexInRange p → indexInRange (previousTestimonial p).
Proof.
  intros Hp. pose proof Hp as (i & Hi & Hr). unfold previousTestimonial.
  rewrite (previous_index p i) by (assumption || lia).
  now apply resetAutoplay_indexInRange, showTestimonial_indexInRange.
Qed.

Lemma handleSwipe_cases (startX endX : Z) (p : Page) :
  handleSwipe startX endX p = p
  ∨ handleSwipe startX endX p = nextTestimonial p
  ∨ handleSwipe startX endX p = previousTestimonial p.
Proof.
  unfold handleSwipe.
  destruct (gt (abs (sub (Num startX) (Num endX))) (Num 50)); [|now left].
  destruct (gt (sub (Num startX) (Num endX)) (Num 0)); auto.
Qed.

Lemma step_indexInRange (e : event) (p : Page) :
  indexInRange p → indexInRange (step e p).
Proof.
  intros Hp. destruct e; simpl.
  - destruct (listening p && prevBtn p);
      auto using previousTestimonial_indexInRange.
  - destruct (listening p && nextBtn p);
      auto using nextTestimonial_indexInRange.
  - destruct (listening p && (i <? length (dots p))%nat);
      auto using goToTestimonial_indexInRange.
  - destruct (listening p); [|assumption].
    destruct Hp as (i & Hi & Hr). exists i. now autorewrite with frame.
  - destruct (listening p); [|assumption].
    destruct Hp as (i & Hi & Hr). exists i. now autorewrite with frame.
  - destruct (listening p); [|assumption].
    destruct (handleSwipe_cases startX endX p) as [-> | [-> | ->]];
      auto using nextTestimonial_indexInRange,
                 previousTestimonial_indexInRange.
  - unfold onTimerTick. destruct (decide (h ∈ live p));
      auto using nextTestimonial_indexInRange.
  - match goal with
    | |- context [if ?c then _ else _] => destruct c
    end; simpl;
      auto using nextTestimonial_indexInRange,
                 previousTestimonial_indexInRange.
  - now apply goToTestimonial_indexInRange.
Qed.

Lemma init_indexInRange (p : Page) :
  currentIndex p = Num 0 →
  (0 < length (cards p))%nat →
  indexInRange (init p).
Proof.
  intros H0 HN. unfold init.
  destruct (negb (container p) || (length (cards p) =? 0)%nat).
  - exists 0. split; [assumption|lia].
  - apply showTestimonial_indexInRange. exists 0.
    autorewrite with frame. simpl. split; [assumption|lia].
Qed.

Lemma step_length_cards (e : event) (p : Page) :
  length (cards (step e p)) = length (cards p).
Proof.
  destruct e; simpl;
    unfold onTimerTick, handleSwipe, nextTestimonial, previousTestimonial,
           goToTestimonial;
    repeat match goal with
           | |- context [if ?c then _ else _] => destruct c
           end;
    simpl; autorewrite with frame;
    rewrite ?showTestimonial_length_cards; reflexivity.
Qed.

Lemma step_length_dots (e : event) (p : Page) :
  length (dots (step e p)) = length (dots p).
Proof.
  destruct e; simpl;
    unfold onTimerTick, handleSwipe, nextTestimonial, previousTestimonial,
           goToTestimonial;
    repeat match goal with
           | |- context [if ?c then _ else _] => destruct c
           end;
    simpl; autorewrite with frame;
    rewrite ?showTestimonial_length_dots; reflexivity.
Qed.

Lemma init_length_cards (p : Page) : length (cards (init p)) = length (cards p).
Proof.
  unfold init.
  destruct (negb (container p) || (length (cards p) =? 0)%nat);
    [reflexivity|].
  rewrite showTestimonial_length_cards. now autorewrite with frame.
Qed.

Lemma init_length_dots (p : Page) : length (dots (init p)) = length (dots p).
Proof.
  unfold init.
  destruct (negb (container p) || (length (cards p) =? 0)%nat);
    [reflexivity|].
  rewrite showTestimonial_length_dots. now autorewrite with frame.
Qed.

Lemma reachable_lengths (p0 p : Page) :
  reachable p0 p →
  length (cards p) = length (cards p0) ∧ length (dots p) = length (dots p0).
Proof.
  induction 1 as [|e p Hr [IHc IHd]]; [split; reflexivity|].
  now rewrite step_length_cards, step_length_dots.
Qed.

Lemma reachable_run (es : list event) (p0 p : Page) :
  reachable p0 p → reachable p0 (run es p).
Proof.
  revert p. induction es as [|e es IH]; intros p Hp; [exact Hp|].
  apply (IH (step e p)). now apply reach_step.
Qed.

Lemma reachable_indexInRange (p0 p : Page) :
  indexInRange p0 → reachable p0 p → indexInRange p.
Proof.
  intros H0. induction 1; auto using step_indexInRange.
Qed.

(** What a render leaves visible, whatever the number of dots. *)
Lemma render_visible (v : Z) (p : Page) :
  0 ≤ v < Z.of_nat (length (cards p)) →
  activeItems (cards (showTestimonial (Num v) p)) = [Z.to_nat v]
  ∧ activeItems (dots (showTestimonial (Num v) p))
    = if decide (v < Z.of_nat (length (dots p))) then [Z.to_nat v] else [].
Proof.
  intros Hv. rewrite showTestimonial_inside by lia. simpl. split.
  - now apply activeItems_render_inside.
  - destruct (decide (v < Z.of_nat (length (dots p)))).
    + apply activeItems_render_inside. lia.
    + apply activeItems_render_beyond. lia.
Qed.

(** C1 (as the code has it). In every state reachable from a constructed
    carousel with N > 0 cards the current index is an integer in [0, N-1];
    and a call of showTestimonial with an in-range index leaves exactly one
    card active, the one at that index. The dots are queried on their own
    and guarded by [if (this.dots[index])]: the dot at that index is then
    the only active dot when the page has a dot there, and no dot is active
    when it has fewer dots than cards and none at that index. *)
Theorem carousel_index_and_render_invariant
    (autoplay hasContainer hasPrev hasNext : bool) (cs ds : list bool)
    (p : Page) :
  (0 < length cs)%nat →
  reachable (newCarousel autoplay hasContainer cs ds hasPrev hasNext) p →
  (∃ i, currentIndex p = Num i ∧ 0 ≤ i < Z.of_nat (length cs))
  ∧ ∀ v, 0 ≤ v < Z.of_nat (length cs) →
      activeItems (cards (showTestimonial (Num v) p)) = [Z.to_nat v]
      ∧ activeItems (dots (showTestimonial (Num v) p))
        = if decide (v < Z.of_nat (length ds)) then [Z.to_nat v] else [].
Proof.
  intros HN Hr.
  pose proof (reachable_lengths _ _ Hr) as [Hc Hd].
  unfold newCarousel in Hc, Hd.
  rewrite init_length_cards in Hc. rewrite init_length_dots in Hd.
  simpl in Hc, Hd. split.
  - assert (indexInRange p) as (i & Hi & Hir).
    { eapply reachable_indexInRange; [|exact Hr].
      apply init_indexInRange; simpl; [reflexivity|lia]. }
    exists i. split; [assumption|lia].
  - intros v Hv.
    destruct (render_visible v p) as [H1 H2]; [lia|].
    split; [assumption|]. rewrite H2, Hd. reflexivity.
Qed.

Lemma carousel_index_and_render_invariant_witness :
  let p := run [ClickNext; ClickNext; ClickNext; ClickPrev]
               (newCarousel true true [true; false; false] [true; false]
                            true true) in
  (∃ i, currentIndex p = Num i ∧ 0 ≤ i < 3)
  ∧ ∀ v, 0 ≤ v < 3 →
      activeItems (cards (showTestimonial (Num v) p)) = [Z.to_nat v]
      ∧ activeItems (dots (showTestimonial (Num v) p))
        = if decide (v < 2) then [Z.to_nat v] else [].
Proof.
  intros p.
  apply (carousel_index_and_render_invariant true true true true
           [true; false; false] [true; false] p).
  - simpl; lia.
  - apply reachable_run, reach_start.
Defined.

(** C1 as stated fails: on a page with three cards and two dots, a fresh
    carousel is a reachable state with N = 3, index 2 is in range, and
    showTestimonial(2) leaves card 2 active but no dot at all. *)
Lemma carousel_one_indicator_counterexample :
  let p := newCarousel true true [true; false; false] [true; false]
                       true true in
  let q := showTestimonial (Num 2) p in
  length (cards p) = 3%nat
  ∧ currentIndex q = Num 2
  ∧ activeItems (cards q) = [2%nat]
  ∧ activeItems (dots q) = []
  ∧ length (activeItems (dots q)) ≠ 1%nat.
Proof.
  repeat split; try (vm_compute; reflexivity).
  vm_compute. discriminate.
Qed.

Lemma nextTestimonial_currentIndex (p : Page) (i : Z) :
  let N := Z.of_nat (length (cards p)) in
  currentIndex p = Num i → 0 ≤ i < N →
  currentIndex (nextTestimonial p) = Num ((i + 1) mod N).
Proof.
  intros N Hi Hr. subst N. unfold nextTestimonial.
  rewrite (next_index p i) by (assumption || lia).
  autorewrite with frame. rewrite showTestimonial_inside; [reflexivity|].
  apply Z.mod_pos_bound; lia.
Qed.

Lemma previousTestimonial_currentIndex (p : Page) (i : Z) :
  let N := Z.of_nat (length (cards p)) in
  currentIndex p = Num i → 0 ≤ i < N →
  currentIndex (previousTestimonial p) = Num ((i - 1 + N) mod N).
Proof.
  intros N Hi Hr. subst N. unfold previousTestimonial.
  rewrite (previous_index p i) by (assumption || lia).
  autorewrite with frame. rewrite showTestimonial_inside; [reflexivity|].
  apply Z.mod_pos_bound; lia.
Qed.

(** C2. With N > 0 cards and the index at i in [0, N-1], nextTestimonial
    moves the index to (i + 1) mod N and previousTestimonial moves it to
    (i - 1 + N) mod N. *)
Theorem next_previous_wrap (p : Page) (i : Z) :
  let N := Z.of_nat (length (cards p)) in
  0 < N →
  currentIndex p = Num i →
  0 ≤ i < N →
  currentIndex (nextTestimonial p) = Num ((i + 1) mod N)
  ∧ currentIndex (previousTestimonial p) = Num ((i - 1 + N) mod N).
Proof.
  intros N HN Hi Hr. split.
  - now apply nextTestimonial_currentIndex.
  - now apply previousTestimonial_currentIndex.
Qed.

Lemma next_previous_wrap_witness :
  currentIndex (nextTestimonial (goToTestimonial (Num 3) (freshCarousel true 4)))
  = Num 0
  ∧ currentIndex (previousTestimonial (freshCarousel true 4)) = Num 3.
Proof.
  split.
  - apply (next_previous_wrap
             (goToTestimonial (Num 3) (freshCarousel true 4)) 3);
      [reflexivity | reflexivity | simpl; lia].
  - apply (next_previous_wrap (freshCarousel true 4) 0);
      [reflexivity | reflexivity | simpl; lia].
Defined.

(** ** The timer discipline of resetAutoplay *)

Lemma showTestimonial_timers (index : number) (p : Page) :
  autoplayTimer (showTestimonial index p) = autoplayTimer p
  ∧ live (showTestimonial index p) = live p
  ∧ nextId (showTestimonial index p) = nextId p
  ∧ isAutoplay (showTestimonial index p) = isAutoplay p.
Proof.
  unfold showTestimonial.
  destruct (lt index (Num 0) || ge index (cardCount p)); simpl; auto.
Qed.

Lemma showTestimonial_held (index : number) (p : Page) :
  held (showTestimonial index p) = held p.
Proof.
  unfold held. now destruct (showTestimonial_timers index p) as (-> & _).
Qed.

Lemma resetAutoplay_timers (p : Page) :
  autoplayTimer (resetAutoplay p)
  = (if isAutoplay p then Some (nextId p) else None)
  ∧ live (resetAutoplay p)
    = (if isAutoplay p then {[nextId p]} ∪ (live p ∖ held p)
       else live p ∖ held p)
  ∧ nextId (resetAutoplay p)
    = (if isAutoplay p then Pos.succ (nextId p) else nextId p).
Proof.
  unfold resetAutoplay, startAutoplay, pauseAutoplay, held.
  destruct (autoplayTimer p) as [t|] eqn:Et; simpl;
    destruct (isAutoplay p); simpl; rewrite ?Et, ?difference_empty_L;
    repeat split; reflexivity.
Qed.

Lemma showTestimonial_timersOk (index : number) (p : Page) :
  timersOk p → timersOk (showTestimonial index p).
Proof.
  unfold timersOk.
  destruct (showTestimonial_timers index p) as (-> & -> & -> & ->). auto.
Qed.

Lemma pauseAutoplay_timersOk (p : Page) :
  timersOk p → timersOk (pauseAutoplay p).
Proof.
  intros Hp. unfold pauseAutoplay.
  destruct (autoplayTimer p) as [t|] eqn:Et; [|exact Hp].
  destruct Hp as (Hf & Hh & He). repeat split; simpl.
  - intros h Hin. apply Hf. now apply elem_of_difference in Hin as [Hin _].
  - discriminate.
  - intros Ha. rewrite (He Ha). apply difference_disjoint_L, disjoint_empty_l.
Qed.

Lemma startAutoplay_timersOk (p : Page) :
  timersOk p → timersOk (startAutoplay p).
Proof.
  intros Hp. unfold startAutoplay.
  destruct (isAutoplay p) eqn:Ea; [|exact Hp].
  destruct Hp as (Hf & Hh & He). repeat split; simpl.
  - intros h Hin. apply elem_of_union in Hin as [Hin|Hin].
    + apply elem_of_singleton in Hin. subst h. lia.
    + specialize (Hf h Hin). lia.
  - intros t [= <-]. lia.
  - congruence.
Qed.

Lemma resetAutoplay_timersOk (p : Page) :
  timersOk p → timersOk (resetAutoplay p).
Proof.
  intros Hp. now apply startAutoplay_timersOk, pauseAutoplay_timersOk.
Qed.

#[export] Hint Resolve showTestimonial_timersOk pauseAutoplay_timersOk
  startAutoplay_timersOk resetAutoplay_timersOk : core.

Lemma step_timersOk (e : event) (p : Page) :
  timersOk p → timersOk (step e p).
Proof.
  intros Hp.
  destruct e; simpl;
    unfold onTimerTick, handleSwipe, nextTestimonial, previousTestimonial,
           goToTestimonial;
    repeat match goal with
           | |- context [if ?c then _ else _] => destruct c
           end;
    simpl; auto.
Qed.

Lemma init_timersOk (p : Page) : timersOk p → timersOk (init p).
Proof.
  intros Hp. unfold init.
  destruct (negb (container p) || (length (cards p) =? 0)%nat); [assumption|].
  apply showTestimonial_timersOk, startAutoplay_timersOk.
  exact Hp.
Qed.

Lemma newCarousel_timersOk (autoplay hasContainer hasPrev hasNext : bool)
    (cs ds : list bool) :
  timersOk (newCarousel autoplay hasContainer cs ds hasPrev hasNext).
Proof.
  apply init_timersOk. repeat split; simpl.
  - intros h Hh. now apply not_elem_of_empty in Hh.
  - discriminate.
Qed.

Lemma reachable_timersOk (p0 p : Page) :
  timersOk p0 → reachable p0 p → timersOk p.
Proof.
  intros H0. induction 1; auto using step_timersOk.
Qed.

(** ** goTo with an index outside the cards *)

(** C3 (as the code has it). For an index v outside [0, N-1],
    goToTestimonial(v) changes neither the current index nor any active mark
    and renders nothing, but it is not a no-op: it does exactly what
    resetAutoplay does, which cancels the timer the carousel holds and, with
    autoplay enabled, starts a new one. *)
Theorem goTo_outside_only_resets_timer (v : Z) (p : Page) :
  v < 0 ∨ Z.of_nat (length (cards p)) ≤ v →
  let q := goToTestimonial (Num v) p in
  q = resetAutoplay p
  ∧ currentIndex q = currentIndex p
  ∧ cards q = cards p
  ∧ dots q = dots p
  ∧ renderLog q = renderLog p
  ∧ autoplayTimer q = (if isAutoplay p then Some (nextId p) else None)
  ∧ live q = (if isAutoplay p then {[nextId p]} ∪ (live p ∖ held p)
              else live p ∖ held p).
Proof.
  intros Hv q. subst q. unfold goToTestimonial.
  rewrite showTestimonial_outside by exact Hv.
  autorewrite with frame.
  destruct (resetAutoplay_timers p) as (Ht & Hl & _).
  repeat split; assumption.
Qed.

Lemma goTo_outside_only_resets_timer_witness :
  let p := goToTestimonial (Num 1) (freshCarousel true 3) in
  let q := goToTestimonial (Num 5) p in
  q = resetAutoplay p
  ∧ currentIndex q = currentIndex p
  ∧ cards q = cards p
  ∧ dots q = dots p
  ∧ renderLog q = renderLog p
  ∧ autoplayTimer q = (if isAutoplay p then Some (nextId p) else None)
  ∧ live q = (if isAutoplay p then {[nextId p]} ∪ (live p ∖ held p)
              else live p ∖ held p).
Proof.
  intros p.
  apply (goTo_outside_only_resets_timer 5 p).
  right. simpl. lia.
Defined.

(** C3 as stated fails: with three cards, the index at 1 and autoplay
    running on timer 2, goToTestimonial(5) cancels timer 2 and starts
    timer 3. *)
Lemma goTo_outside_noop_counterexample :
  let p := goToTestimonial (Num 1) (freshCarousel true 3) in
  let q := goToTestimonial (Num 5) p in
  length (cards p) = 3%nat
  ∧ currentIndex p = Num 1
  ∧ autoplayTimer p = Some 2%positive
  ∧ elements (live p) = [2%positive]
  ∧ autoplayTimer q = Some 3%positive
  ∧ elements (live q) = [3%positive]
  ∧ q ≠ p.
Proof.
  repeat split; try (vm_compute; reflexivity).
  intros H. apply (f_equal autoplayTimer) in H. vm_compute in H. discriminate H.
Qed.

(** ** The autoplay tick *)

(** C4 (as the code has it). The callback of a live autoplay timer is
    nextTestimonial itself: the tick advances the index and renders exactly
    as next does and, like next, cancels the timer the carousel holds and
    starts a new one with a handle that was not live before. *)
Theorem tick_is_next_and_resets_timer
    (autoplay hasContainer hasPrev hasNext : bool) (cs ds : list bool)
    (p : Page) (h : positive) :
  reachable (newCarousel autoplay hasContainer cs ds hasPrev hasNext) p →
  h ∈ live p →
  let q := onTimerTick h p in
  q = nextTestimonial p
  ∧ (∀ t, autoplayTimer p = Some t → t ∉ live q)
  ∧ autoplayTimer q = Some (nextId p)
  ∧ nextId p ∈ live q
  ∧ nextId p ∉ live p.
Proof.
  intros Hr Hh q. subst q.
  assert (timersOk p) as (Hfresh & Hheld & Hoff).
  { eapply reachable_timersOk; [apply newCarousel_timersOk | exact Hr]. }
  assert (isAutoplay p = true) as Ha.
  { destruct (isAutoplay p); [reflexivity|].
    rewrite Hoff in Hh by reflexivity. now apply not_elem_of_empty in Hh. }
  assert (nextId p ∉ live p) as Hnew.
  { intros Hin. specialize (Hfresh _ Hin). lia. }
  unfold onTimerTick. destruct (decide (h ∈ live p)); [|contradiction].
  split; [reflexivity|].
  unfold nextTestimonial.
  set (idx := rem (add (currentIndex p) (Num 1)) (cardCount p)).
  destruct (showTestimonial_timers idx p) as (Et & El & En & Ei).
  destruct (resetAutoplay_timers (showTestimonial idx p)) as (Ht & Hl & _).
  rewrite Ei, Ha, En in Ht, Hl. rewrite El, showTestimonial_held in Hl.
  repeat split.
  - intros t Ht'. rewrite Hl. unfold held. rewrite Ht'.
    specialize (Hheld _ Ht').
    intros [Hin|Hin]%elem_of_union.
    + apply elem_of_singleton in Hin. lia.
    + apply elem_of_difference in Hin as [_ Hin].
      apply Hin. now apply elem_of_singleton.
  - exact Ht.
  - rewrite Hl. apply elem_of_union_l. now apply elem_of_singleton.
  - exact Hnew.
Qed.

Lemma tick_is_next_and_resets_timer_witness :
  let p := freshCarousel true 3 in
  let q := onTimerTick 1 p in
  q = nextTestimonial p
  ∧ (∀ t, autoplayTimer p = Some t → t ∉ live q)
  ∧ autoplayTimer q = Some (nextId p)
  ∧ nextId p ∈ live q
  ∧ nextId p ∉ live p.
Proof.
  intros p.
  apply (tick_is_next_and_resets_timer true true true true
           (replicate 3 false) (replicate 3 false) p 1%positive).
  - apply reach_start.
  - vm_compute. reflexivity.
Defined.

(** C4 as stated fails: on a fresh carousel with three cards the autoplay
    timer is timer 1; when it fires it is cancelled and timer 2 takes its
    place. *)
Lemma tick_keeps_schedule_counterexample :
  let p := freshCarousel true 3 in
  let q := onTimerTick 1 p in
  autoplayTimer p = Some 1%positive
  ∧ elements (live p) = [1%positive]
  ∧ currentIndex q = Num 1
  ∧ autoplayTimer q = Some 2%positive
  ∧ elements (live q) = [2%positive].
Proof. repeat split; vm_compute; reflexivity. Qed.

(** ** How many timers are live *)

(** resetAutoplay cancels before it starts: if the only live timer is the
    one the carousel holds, that is still so afterwards. *)
Lemma resetAutoplay_single_timer (p : Page) :
  live p ⊆ held p → live (resetAutoplay p) = held (resetAutoplay p).
Proof.
  intros Hsub. unfold held at 1.
  destruct (resetAutoplay_timers p) as (-> & -> & _).
  assert (live p ∖ held p = ∅) as ->.
  { apply set_eq. intros x. split.
    - intros [Hin Hout]%elem_of_difference. destruct Hout. now apply Hsub.
    - intros Hin. now apply not_elem_of_empty in Hin. }
  destruct (isAutoplay p); [apply union_empty_r_L | reflexivity].
Qed.

(** startAutoplay does not: it adds a timer next to whatever is live. *)
Lemma startAutoplay_adds_timer (p : Page) :
  isAutoplay p = true →
  live (startAutoplay p) = {[nextId p]} ∪ live p
  ∧ autoplayTimer (startAutoplay p) = Some (nextId p).
Proof. intros Ha. unfold startAutoplay. rewrite Ha. simpl. auto. Qed.

Example next_twice_one_timer :
  let p := nextTestimonial (nextTestimonial (freshCarousel true 5)) in
  size (live p) = 1%nat ∧ live p = held p.
Proof. split; vm_compute; reflexivity. Qed.

(** C5 (the code diverges). At most one autoplay timer should be live,
    every start being preceded by a cancel. resetAutoplay does that, but the
    hover-leave handler calls startAutoplay directly: with five cards and
    autoplay on, hover-enter, a click on next and hover-leave end with two
    live timers, of which only timer 3 can still be cancelled. Hover-leave
    alone does the same to a fresh carousel. *)
Theorem hover_leave_leaks_timer :
  let p := run [MouseEnter; ClickNext; MouseLeave] (freshCarousel true 5) in
  let p' := run [MouseLeave] (freshCarousel true 5) in
  size (live p) = 2%nat
  ∧ elements (live p) = [3%positive; 2%positive]
  ∧ autoplayTimer p = Some 3%positive
  ∧ size (live p') = 2%nat
  ∧ autoplayTimer p' = Some 2%positive
  ∧ elements (live (pauseAutoplay p')) = [1%positive].
Proof. repeat split; vm_compute; reflexivity. Qed.

(** ** A single card *)

Lemma nextTestimonial_renderLog (p : Page) (i : Z) :
  let N := Z.of_nat (length (cards p)) in
  currentIndex p = Num i → 0 ≤ i < N →
  renderLog (nextTestimonial p) = renderLog p ++ [Num ((i + 1) mod N)].
Proof.
  intros N Hi Hr. subst N. unfold nextTestimonial.
  rewrite (next_index p i) by (assumption || lia).
  autorewrite with frame. rewrite showTestimonial_inside; [reflexivity|].
  apply Z.mod_pos_bound; lia.
Qed.

Lemma previousTestimonial_renderLog (p : Page) (i : Z) :
  let N := Z.of_nat (length (cards p)) in
  currentIndex p = Num i → 0 ≤ i < N →
  renderLog (previousTestimonial p) = renderLog p ++ [Num ((i - 1 + N) mod N)].
Proof.
  intros N Hi Hr. subst N. unfold previousTestimonial.
  rewrite (previous_index p i) by (assumption || lia).
  autorewrite with frame. rewrite showTestimonial_inside; [reflexivity|].
  apply Z.mod_pos_bound; lia.
Qed.

(** C6 (as the code has it). With a single card the index is 0 in every
    reachable state, and next, previous, a swipe of any magnitude and a timer
    tick leave it at 0. The carousel is not inert, though: next and previous
    each invoke the render again with index 0, and the constructor starts the
    autoplay timer when autoplay is configured. *)
Theorem single_card_index_stays_zero
    (autoplay hasContainer hasPrev hasNext : bool) (c : bool) (ds : list bool)
    (p : Page) :
  let p0 := newCarousel autoplay hasContainer [c] ds hasPrev hasNext in
  reachable p0 p →
  currentIndex p = Num 0
  ∧ currentIndex (nextTestimonial p) = Num 0
  ∧ currentIndex (previousTestimonial p) = Num 0
  ∧ (∀ startX endX, currentIndex (handleSwipe startX endX p) = Num 0)
  ∧ (∀ h, currentIndex (onTimerTick h p) = Num 0)
  ∧ renderLog (nextTestimonial p) = renderLog p ++ [Num 0]
  ∧ renderLog (previousTestimonial p) = renderLog p ++ [Num 0]
  ∧ (hasContainer = true → autoplay = true →
       autoplayTimer p0 = Some 1%positive ∧ live p0 = {[1%positive]}).
Proof.
  intros p0 Hr.
  assert (length (cards p) = 1%nat) as HN.
  { destruct (reachable_lengths _ _ Hr) as [-> _].
    unfold p0, newCarousel. now rewrite init_length_cards. }
  assert (currentIndex p = Num 0) as H0.
  { assert (indexInRange p) as (i & Hi & Hir).
    { eapply reachable_indexInRange; [|exact Hr].
      apply init_indexInRange; simpl; [reflexivity|lia]. }
    rewrite Hi. f_equal. lia. }
  pose proof (nextTestimonial_currentIndex p 0 H0) as Hn.
  pose proof (previousTestimonial_currentIndex p 0 H0) as Hp.
  rewrite HN in Hn, Hp. specialize (Hn ltac:(lia)). specialize (Hp ltac:(lia)).
  split; [assumption|]. split; [exact Hn|]. split; [exact Hp|].
  split; [|split; [|split; [|split]]].
  - intros startX endX.
    destruct (handleSwipe_cases startX endX p) as [-> | [-> | ->]];
      assumption.
  - intros h. unfold onTimerTick. destruct (decide (h ∈ live p)); assumption.
  - rewrite (nextTestimonial_renderLog p 0) by (assumption || lia).
    now rewrite HN.
  - rewrite (previousTestimonial_renderLog p 0) by (assumption || lia).
    now rewrite HN.
  - intros -> ->. subst p0. split; [reflexivity|].
    unfold newCarousel, init. simpl. apply union_empty_r_L.
Qed.

Lemma single_card_index_stays_zero_witness :
  let p0 := freshCarousel true 1 in
  let p := run [ClickNext; Touch 200 0; Tick 3] p0 in
  currentIndex p = Num 0
  ∧ currentIndex (nextTestimonial p) = Num 0
  ∧ currentIndex (previousTestimonial p) = Num 0
  ∧ (∀ startX endX, currentIndex (handleSwipe startX endX p) = Num 0)
  ∧ (∀ h, currentIndex (onTimerTick h p) = Num 0)
  ∧ renderLog (nextTestimonial p) = renderLog p ++ [Num 0]
  ∧ renderLog (previousTestimonial p) = renderLog p ++ [Num 0]
  ∧ (true = true → true = true →
       autoplayTimer p0 = Some 1%positive ∧ live p0 = {[1%positive]}).
Proof.
  intros p0 p.
  apply (single_card_index_stays_zero true true true true false [false] p).
  apply reachable_run, reach_start.
Defined.

(** C6 as stated fails: a fresh carousel with one card and autoplay
    configured has a live autoplay timer, and one call of next makes the
    render run a second time. *)
Lemma single_card_inert_counterexample :
  let p := freshCarousel true 1 in
  length (cards p) = 1%nat
  ∧ autoplayTimer p = Some 1%positive
  ∧ elements (live p) = [1%positive]
  ∧ renderLog p = [Num 0]
  ∧ renderLog (nextTestimonial p) = [Num 0; Num 0]
  ∧ renderLog (onTimerTick 1 p) = [Num 0; Num 0].
Proof. repeat split; vm_compute; reflexivity. Qed.

(** ** No cards *)

(** The constructor leaves an empty carousel untouched: no listener, no
    timer, no render. *)
Lemma newCarousel_empty (autoplay hasContainer hasPrev hasNext : bool)
    (ds : list bool) :
  newCarousel autoplay hasContainer [] ds hasPrev hasNext
  = mkPage hasContainer [] ds hasPrev hasNext false
           (Num 0) autoplay None ∅ 1%positive [].
Proof.
  unfold newCarousel, init. simpl. now rewrite orb_true_r.
Qed.

(** C7 (the code diverges). An empty carousel should stay inert under every
    operation. The constructor keeps it so, but the navigation methods have
    no such guard: through the inline wrapper changeTestimonial(1), next
    computes 1 % 0 = NaN, which passes the range test of showTestimonial, so
    the index becomes NaN, the marks of the dots are cleared, and
    resetAutoplay starts timer 1. goToTestimonial likewise starts a timer. *)
Theorem empty_carousel_not_inert :
  let p := newCarousel true true [] [true] true true in
  let q := default p (changeTestimonial (Num 1) (Some p)) in
  let g := default p (currentTestimonial (Num 1) (Some p)) in
  (listening p = false ∧ currentIndex p = Num 0 ∧ autoplayTimer p = None
   ∧ elements (live p) = [] ∧ renderLog p = [] ∧ dots p = [true])
  ∧ currentIndex q = NaN
  ∧ renderLog q = [NaN]
  ∧ dots q = [false]
  ∧ autoplayTimer q = Some 1%positive
  ∧ elements (live q) = [1%positive]
  ∧ currentIndex g = Num 0
  ∧ elements (live g) = [1%positive].
Proof. repeat split; vm_compute; reflexivity. Qed.

(** ** Swipes *)

(** C8. With diff = startX - endX and the threshold of 50 pixels: a swipe
    with |diff| <= 50 does nothing, one with diff > 50 does exactly what one
    call of next does, and one with diff < -50 exactly what one call of
    previous does. *)
Theorem handleSwipe_threshold (startX endX : Z) (p : Page) :
  let diff := startX - endX in
  (Z.abs diff ≤ 50 → handleSwipe startX endX p = p)
  ∧ (50 < diff → handleSwipe startX endX p = nextTestimonial p)
  ∧ (diff < -50 → handleSwipe startX endX p = previousTestimonial p).
Proof.
  intros diff. unfold handleSwipe, gt; simpl. fold diff.
  destruct (Z.ltb_spec 50 (Z.abs diff)) as [Hbig|Hsmall];
    destruct (Z.ltb_spec 0 diff) as [Hpos|Hneg];
    repeat split; intros; (reflexivity || lia).
Qed.

Lemma handleSwipe_threshold_witness :
  let p := freshCarousel true 5 in
  handleSwipe 100 70 p = p
  ∧ handleSwipe 100 40 p = nextTestimonial p
  ∧ handleSwipe 40 100 p = previousTestimonial p.
Proof.
  intros p. split; [|split].
  - apply (proj1 (handleSwipe_threshold 100 70 p)). simpl. lia.
  - apply (proj1 (proj2 (handleSwipe_threshold 100 40 p))). simpl. lia.
  - apply (proj2 (proj2 (handleSwipe_threshold 40 100 p))). simpl. lia.
Defined.

(** ** Going twice to the same card *)

Lemma removeActiveAll_replicate (nodes : list bool) :
  removeActiveAll nodes = replicate (length nodes) false.
Proof.
  induction nodes as [|b rest IH]; simpl; [reflexivity|].
  f_equal. exact IH.
Qed.

Lemma render_twice (index : number) (nodes : list bool) :
  addActive index (removeActiveAll (addActive index (removeActiveAll nodes)))
  = addActive index (removeActiveAll nodes).
Proof.
  f_equal. rewrite !removeActiveAll_replicate.
  now rewrite length_addActive, length_replicate.
Qed.

(** C9. For an index v in [0, N-1], going to v twice leaves the index at v,
    runs the render with v both times, and the second render leaves the
    cards and the dots marked exactly as the first did. *)
Theorem goTo_twice (v : Z) (p : Page) :
  0 ≤ v < Z.of_nat (length (cards p)) →
  let q1 := goToTestimonial (Num v) p in
  let q2 := goToTestimonial (Num v) q1 in
  currentIndex q1 = Num v
  ∧ currentIndex q2 = Num v
  ∧ renderLog q1 = renderLog p ++ [Num v]
  ∧ renderLog q2 = renderLog p ++ [Num v; Num v]
  ∧ cards q2 = cards q1
  ∧ dots q2 = dots q1.
Proof.
  intros Hv q1 q2.
  assert (0 ≤ v < Z.of_nat (length (cards q1))) as Hv1.
  { subst q1. unfold goToTestimonial. autorewrite with frame.
    now rewrite showTestimonial_length_cards. }
  assert (currentIndex q1 = Num v ∧ renderLog q1 = renderLog p ++ [Num v]
          ∧ cards q1 = addActive (Num v) (removeActiveAll (cards p))
          ∧ dots q1 = addActive (Num v) (removeActiveAll (dots p)))
    as (Hi1 & Hl1 & Hc1 & Hd1).
  { subst q1. unfold goToTestimonial. autorewrite with frame.
    rewrite showTestimonial_inside by exact Hv. simpl. auto. }
  subst q2. unfold goToTestimonial at 1 2 3 4. autorewrite with frame.
  rewrite showTestimonial_inside by exact Hv1. simpl.
  rewrite Hl1, Hc1, Hd1, !render_twice, <- app_assoc.
  repeat split; assumption || reflexivity.
Qed.

Lemma goTo_twice_witness :
  let p := freshCarousel true 4 in
  let q1 := goToTestimonial (Num 2) p in
  let q2 := goToTestimonial (Num 2) q1 in
  currentIndex q1 = Num 2
  ∧ currentIndex q2 = Num 2
  ∧ renderLog q1 = renderLog p ++ [Num 2]
  ∧ renderLog q2 = renderLog p ++ [Num 2; Num 2]
  ∧ cards q2 = cards q1
  ∧ dots q2 = dots q1.
Proof.
  intros p. apply (goTo_twice 2 p). simpl. lia.
Defined.

(** ** The inline wrappers *)

(** C10. The wrappers take a 1-based index: currentTestimonial(i) is
    goToTestimonial(i - 1) on the registered carousel, so with at least one
    card currentTestimonial(1) activates card 0; changeTestimonial(d) is
    next when d > 0 and previous otherwise; and with no carousel registered
    both do nothing. *)
Theorem inline_wrappers (i d : Z) (c : Page) :
  currentTestimonial (Num i) (Some c) = Some (goToTestimonial (Num (i - 1)) c)
  ∧ (0 < d → changeTestimonial (Num d) (Some c) = Some (nextTestimonial c))
  ∧ (d ≤ 0 →
       changeTestimonial (Num d) (Some c) = Some (previousTestimonial c))
  ∧ currentTestimonial (Num i) None = None
  ∧ changeTestimonial (Num d) None = None
  ∧ ((0 < length (cards c))%nat →
       ∃ q, currentTestimonial (Num 1) (Some c) = Some q
            ∧ currentIndex q = Num 0
            ∧ activeItems (cards q) = [0%nat]).
Proof.
  split; [reflexivity|].
  split.
  { intros Hd. unfold changeTestimonial, gt; simpl.
    destruct (Z.ltb_spec 0 d); [reflexivity|lia]. }
  split.
  { intros Hd. unfold changeTestimonial, gt; simpl.
    destruct (Z.ltb_spec 0 d); [lia|reflexivity]. }
  split; [reflexivity|]. split; [reflexivity|].
  intros HN. eexists. split; [reflexivity|].
  change (sub (Num 1) (Num 1)) with (Num 0).
  unfold goToTestimonial. autorewrite with frame.
  destruct (render_visible 0 c) as [Hc _]; [lia|].
  rewrite Hc. rewrite showTestimonial_inside by lia. split; reflexivity.
Qed.

Lemma inline_wrappers_witness :
  let c := goToTestimonial (Num 2) (freshCarousel true 3) in
  changeTestimonial (Num 1) (Some c) = Some (nextTestimonial c)
  ∧ changeTestimonial (Num (-1)) (Some c) = Some (previousTestimonial c)
  ∧ ∃ q, currentTestimonial (Num 1) (Some c) = Some q
         ∧ currentIndex q = Num 0
         ∧ activeItems (cards q) = [0%nat].
Proof.
  intros c. split; [|split].
  - apply (proj1 (proj2 (inline_wrappers 1 1 c))). lia.
  - apply (proj1 (proj2 (proj2 (inline_wrappers 1 (-1) c)))). lia.
  - apply (proj2 (proj2 (proj2 (proj2 (proj2 (inline_wrappers 1 1 c)))))).
    simpl. lia.
Defined.

(** * Further properties of the carousel *)

(** ** The marks follow the index *)

Lemma showTestimonial_synced (v : Z) (p : Page) :
  synced p → synced (showTestimonial (Num v) p).
Proof.
  intros Hp.
  destruct (Z_lt_ge_dec v 0) as [Hlt|Hge].
  { now rewrite showTestimonial_outside by lia. }
  destruct (Z_lt_ge_dec v (Z.of_nat (length (cards p)))) as [Hin|Hout].
  - exists v. destruct (render_visible v p) as [Hc Hd]; [lia|].
    rewrite showTestimonial_length_cards, showTestimonial_length_dots, Hc, Hd.
    rewrite showTestimonial_inside by lia. simpl.
    repeat split; try reflexivity; lia.
  - now rewrite showTestimonial_outside by lia.
Qed.

Lemma synced_indexInRange (p : Page) : synced p → indexInRange p.
Proof. intros (i & Hi & Hr & _). now exists i. Qed.

Lemma resetAutoplay_synced (p : Page) : synced p → synced (resetAutoplay p).
Proof. intros (i & H). exists i. now autorewrite with frame. Qed.

Lemma pauseAutoplay_synced (p : Page) : synced p → synced (pauseAutoplay p).
Proof. intros (i & H). exists i. now autorewrite with frame. Qed.

Lemma startAutoplay_synced (p : Page) : synced p → synced (startAutoplay p).
Proof. intros (i & H). exists i. now autorewrite with frame. Qed.

Lemma goToTestimonial_synced (v : Z) (p : Page) :
  synced p → synced (goToTestimonial (Num v) p).
Proof.
  intros Hp. now apply resetAutoplay_synced, showTestimonial_synced.
Qed.

Lemma nextTestimonial_synced (p : Page) :
  synced p → synced (nextTestimonial p).
Proof.
  intros Hp. pose proof Hp as (i & Hi & Hr & _). unfold nextTestimonial.
  rewrite (next_index p i) by (assumption || lia).
  now apply resetAutoplay_synced, showTestimonial_synced.
Qed.

Lemma previousTestimonial_synced (p : Page) :
  synced p → synced (previousTestimonial p).
Proof.
  intros Hp. pose proof Hp as (i & Hi & Hr & _). unfold previousTestimonial.
  rewrite (previous_index p i) by (assumption || lia).
  now apply resetAutoplay_synced, showTestimonial_synced.
Qed.

Lemma step_synced (e : event) (p : Page) : synced p → synced (step e p).
Proof.
  intros Hp. destruct e; simpl.
  - destruct (listening p && prevBtn p);
      auto using previousTestimonial_synced.
  - destruct (listening p && nextBtn p); auto using nextTestimonial_synced.
  - destruct (listening p && (i <? length (dots p))%nat);
      auto using goToTestimonial_synced.
  - destruct (listening p); auto using pauseAutoplay_synced.
  - destruct (listening p); auto using startAutoplay_synced.
  - destruct (listening p); [|assumption].
    destruct (handleSwipe_cases startX endX p) as [-> | [-> | ->]];
      auto using nextTestimonial_synced, previousTestimonial_synced.
  - unfold onTimerTick. destruct (decide (h ∈ live p));
      auto using nextTestimonial_synced.
  - match goal with
    | |- context [if ?c then _ else _] => destruct c
    end; simpl;
      auto using nextTestimonial_synced, previousTestimonial_synced.
  - now apply goToTestimonial_synced.
Qed.

Lemma newCarousel_synced (autoplay hasPrev hasNext : bool) (cs ds : list bool) :
  (0 < length cs)%nat →
  synced (newCarousel autoplay true cs ds hasPrev hasNext).
Proof.
  intros HN. unfold newCarousel, init.
  set (p0 := mkPage _ _ _ _ _ _ _ _ _ _ _ _).
  change (container p0) with true. change (cards p0) with cs.
  destruct (Nat.eqb_spec (length cs) 0) as [E|E]; [lia|]. cbn [negb orb].
  set (q := startAutoplay _).
  assert (length (cards q) = length cs) as Hc
    by (subst q; now autorewrite with frame).
  exists 0. destruct (render_visible 0 q) as [Hcs Hds]; [lia|].
  rewrite showTestimonial_length_cards, showTestimonial_length_dots, Hcs, Hds.
  rewrite showTestimonial_inside by lia. simpl.
  repeat split; try reflexivity; lia.
Qed.

(** X1. Once a carousel with a container and at least one card is
    constructed, the visible marks never drift from the index: in every
    reachable state the one active card is the card at currentIndex, and the
    dot at that position is the one active dot (no dot is active when the
    page has no dot there). *)
Theorem marks_follow_index
    (autoplay hasPrev hasNext : bool) (cs ds : list bool) (p : Page) :
  (0 < length cs)%nat →
  reachable (newCarousel autoplay true cs ds hasPrev hasNext) p →
  ∃ i, currentIndex p = Num i
       ∧ 0 ≤ i < Z.of_nat (length cs)
       ∧ activeItems (cards p) = [Z.to_nat i]
       ∧ activeItems (dots p)
         = if decide (i < Z.of_nat (length ds)) then [Z.to_nat i] else [].
Proof.
  intros HN Hr.
  assert (synced p) as (i & Hi & Hir & Hc & Hd).
  { clear -HN Hr. induction Hr; auto using step_synced, newCarousel_synced. }
  destruct (reachable_lengths _ _ Hr) as [Hlc Hld].
  unfold newCarousel in Hlc, Hld.
  rewrite init_length_cards in Hlc. rewrite init_length_dots in Hld.
  simpl in Hlc, Hld. rewrite Hlc in Hir. rewrite Hld in Hd.
  exists i. auto.
Qed.

Lemma marks_follow_index_witness :
  let p := run [ClickNext; Touch 0 90; ClickDot 1; Tick 4]
               (newCarousel true true [true; true; false] [false; true]
                            true true) in
  ∃ i, currentIndex p = Num i
       ∧ 0 ≤ i < 3
       ∧ activeItems (cards p) = [Z.to_nat i]
       ∧ activeItems (dots p) = if decide (i < 2) then [Z.to_nat i] else [].
Proof.
  intros p.
  apply (marks_follow_index true true true [true; true; false] [false; true] p).
  - simpl. lia.
  - apply reachable_run, reach_start.
Defined.

(** ** What the timer methods do to the timers *)

Lemma pauseAutoplay_timers (p : Page) :
  autoplayTimer (pauseAutoplay p) = None
  ∧ live (pauseAutoplay p) = live p ∖ held p
  ∧ nextId (pauseAutoplay p) = nextId p
  ∧ isAutoplay (pauseAutoplay p) = isAutoplay p
  ∧ listening (pauseAutoplay p) = listening p.
Proof.
  unfold pauseAutoplay, held.
  destruct (autoplayTimer p) as [t|] eqn:Et; simpl;
    rewrite ?difference_empty_L; auto.
Qed.

Lemma startAutoplay_timers (p : Page) :
  autoplayTimer (startAutoplay p)
  = (if isAutoplay p then Some (nextId p) else autoplayTimer p)
  ∧ live (startAutoplay p)
    = (if isAutoplay p then {[nextId p]} ∪ live p else live p)
  ∧ isAutoplay (startAutoplay p) = isAutoplay p
  ∧ listening (startAutoplay p) = listening p.
Proof.
  unfold startAutoplay. destruct (isAutoplay p) eqn:Ea; simpl; auto.
Qed.

Lemma showTestimonial_listening (index : number) (p : Page) :
  listening (showTestimonial index p) = listening p.
Proof.
  unfold showTestimonial.
  destruct (lt index (Num 0) || ge index (cardCount p)); reflexivity.
Qed.

(** Every event is one of four things to the timers. *)
Lemma step_shape (e : event) (p : Page) :
  step e p = p
  ∨ (e = MouseEnter ∧ step e p = pauseAutoplay p)
  ∨ (e = MouseLeave ∧ step e p = startAutoplay p)
  ∨ ∃ index, step e p = resetAutoplay (showTestimonial index p).
Proof.
  destruct e; simpl;
    unfold onTimerTick, handleSwipe, nextTestimonial, previousTestimonial,
           goToTestimonial;
    repeat match goal with
           | |- context [if ?c then _ else _] => destruct c
           end;
    simpl; eauto 6.
Qed.

Lemma step_isAutoplay (e : event) (p : Page) :
  isAutoplay (step e p) = isAutoplay p.
Proof.
  destruct (step_shape e p) as [-> | [[_ ->] | [[_ ->] | [index ->]]]].
  - reflexivity.
  - apply pauseAutoplay_timers.
  - apply startAutoplay_timers.
  - rewrite resetAutoplay_isAutoplay. apply showTestimonial_timers.
Qed.

Lemma step_listening (e : event) (p : Page) :
  listening (step e p) = listening p.
Proof.
  destruct (step_shape e p) as [-> | [[_ ->] | [[_ ->] | [index ->]]]].
  - reflexivity.
  - apply pauseAutoplay_timers.
  - apply startAutoplay_timers.
  - rewrite resetAutoplay_listening. apply showTestimonial_listening.
Qed.

(** *** The held handle is live *)

Lemma pauseAutoplay_heldIsLive (p : Page) : heldIsLive (pauseAutoplay p).
Proof.
  intros t. destruct (pauseAutoplay_timers p) as (-> & _). discriminate.
Qed.

Lemma startAutoplay_heldIsLive (p : Page) :
  heldIsLive p → heldIsLive (startAutoplay p).
Proof.
  intros Hp t. destruct (startAutoplay_timers p) as (-> & -> & _).
  destruct (isAutoplay p); [|apply Hp].
  intros [= <-]. apply elem_of_union_l. now apply elem_of_singleton.
Qed.

Lemma step_heldIsLive (e : event) (p : Page) :
  heldIsLive p → heldIsLive (step e p).
Proof.
  intros Hp.
  destruct (step_shape e p) as [-> | [[_ ->] | [[_ ->] | [index ->]]]].
  - exact Hp.
  - apply pauseAutoplay_heldIsLive.
  - now apply startAutoplay_heldIsLive.
  - apply startAutoplay_heldIsLive, pauseAutoplay_heldIsLive.
Qed.

Lemma init_heldIsLive (p : Page) : heldIsLive p → heldIsLive (init p).
Proof.
  intros Hp. unfold init.
  destruct (negb (container p) || (length (cards p) =? 0)%nat); [exact Hp|].
  intros t. destruct (showTestimonial_timers (Num 0)
                        (startAutoplay (setupEventListeners p)))
    as (-> & -> & _).
  apply startAutoplay_heldIsLive. exact Hp.
Qed.

Lemma newCarousel_heldIsLive (autoplay hasContainer hasPrev hasNext : bool)
    (cs ds : list bool) :
  heldIsLive (newCarousel autoplay hasContainer cs ds hasPrev hasNext).
Proof. apply init_heldIsLive. intros t. discriminate. Qed.

Lemma reachable_heldIsLive (p0 p : Page) :
  heldIsLive p0 → reachable p0 p → heldIsLive p.
Proof. intros H0. induction 1; auto using step_heldIsLive. Qed.

Lemma reachable_isAutoplay (p0 p : Page) :
  reachable p0 p → isAutoplay p = isAutoplay p0.
Proof.
  induction 1 as [|e p Hr IH]; [reflexivity|]. now rewrite step_isAutoplay.
Qed.

Lemma init_isAutoplay (p : Page) : isAutoplay (init p) = isAutoplay p.
Proof.
  unfold init.
  destruct (negb (container p) || (length (cards p) =? 0)%nat); [reflexivity|].
  destruct (showTestimonial_timers (Num 0)
              (startAutoplay (setupEventListeners p))) as (_ & _ & _ & ->).
  destruct (startAutoplay_timers (setupEventListeners p)) as (_ & _ & -> & _).
  reflexivity.
Qed.

(** X2. With autoplay switched off in the configuration (as the
    reduced-motion setting does) the carousel never creates a timer: in every
    reachable state no timer is live and none is held, whatever is clicked,
    hovered or swiped. *)
Theorem no_autoplay_no_timer
    (hasContainer hasPrev hasNext : bool) (cs ds : list bool) (p : Page) :
  reachable (newCarousel false hasContainer cs ds hasPrev hasNext) p →
  live p = ∅ ∧ autoplayTimer p = None.
Proof.
  intros Hr.
  assert (isAutoplay p = false) as Ha.
  { rewrite (reachable_isAutoplay _ _ Hr). unfold newCarousel.
    now rewrite init_isAutoplay. }
  assert (live p = ∅) as Hl.
  { eapply reachable_timersOk in Hr; [|apply newCarousel_timersOk].
    destruct Hr as (_ & _ & Hoff). auto. }
  split; [exact Hl|].
  assert (heldIsLive p) as Hh.
  { eapply reachable_heldIsLive; [apply newCarousel_heldIsLive | exact Hr]. }
  destruct (autoplayTimer p) as [t|] eqn:Et; [|reflexivity].
  specialize (Hh t Et). rewrite Hl in Hh. now apply not_elem_of_empty in Hh.
Qed.

Lemma no_autoplay_no_timer_witness :
  let p := run [ClickNext; MouseLeave; MouseEnter; MouseLeave; Touch 0 99]
               (newCarousel false true [false; false] [false; false]
                            true true) in
  live p = ∅ ∧ autoplayTimer p = None.
Proof.
  intros p.
  apply (no_autoplay_no_timer true true true [false; false] [false; false] p).
  apply reachable_run, reach_start.
Defined.

(** *** One timer, as long as hover-leave finds the carousel paused *)

Lemma held_size (p : Page) : (size (held p) ≤ 1)%nat.
Proof.
  unfold held. destruct (autoplayTimer p).
  - rewrite size_singleton. lia.
  - rewrite size_empty. lia.
Qed.

Lemma pauseAutoplay_single_timer (p : Page) :
  live p = held p → live (pauseAutoplay p) = held (pauseAutoplay p).
Proof.
  intros Hl. unfold held at 1.
  destruct (pauseAutoplay_timers p) as (-> & -> & _). rewrite Hl.
  apply set_eq. intros x. rewrite elem_of_difference. split.
  - intros [Hin Hout]. contradiction.
  - intros Hin. now apply not_elem_of_empty in Hin.
Qed.

Lemma startAutoplay_single_timer (p : Page) :
  autoplayTimer p = None →
  live p = held p → live (startAutoplay p) = held (startAutoplay p).
Proof.
  intros Hn Hl. unfold held at 1.
  destruct (startAutoplay_timers p) as (-> & -> & _).
  destruct (isAutoplay p).
  - rewrite Hl. unfold held. rewrite Hn. apply union_empty_r_L.
  - rewrite Hl. reflexivity.
Qed.

Lemma step_single_timer (e : event) (p : Page) :
  (e = MouseLeave → autoplayTimer p = None) →
  live p = held p → live (step e p) = held (step e p).
Proof.
  intros Hleave Hl.
  destruct (step_shape e p) as [-> | [[_ ->] | [[He ->] | [index ->]]]].
  - exact Hl.
  - now apply pauseAutoplay_single_timer.
  - apply startAutoplay_single_timer; auto.
  - apply resetAutoplay_single_timer.
    destruct (showTestimonial_timers index p) as (_ & -> & _).
    rewrite showTestimonial_held, Hl. reflexivity.
Qed.

Lemma run_single_timer (es : list event) (p : Page) :
  leaveOnlyWhenPaused es p = true →
  live p = held p → live (run es p) = held (run es p).
Proof.
  revert p. induction es as [|e es IH]; intros p Hes Hl; [exact Hl|].
  unfold run; simpl. apply IH.
  - simpl in Hes. destruct e; try exact Hes.
    destruct (autoplayTimer p); [discriminate|exact Hes].
  - apply step_single_timer; [|exact Hl].
    intros ->. simpl in Hes. destruct (autoplayTimer p); [discriminate|reflexivity].
Qed.

Lemma newCarousel_single_timer (autoplay hasContainer hasPrev hasNext : bool)
    (cs ds : list bool) :
  let p0 := newCarousel autoplay hasContainer cs ds hasPrev hasNext in
  live p0 = held p0.
Proof.
  intros p0. subst p0. unfold newCarousel, init.
  set (q := mkPage _ _ _ _ _ _ _ _ _ _ _ _).
  destruct (negb (container q) || (length (cards q) =? 0)%nat); [reflexivity|].
  destruct (showTestimonial_timers (Num 0)
              (startAutoplay (setupEventListeners q))) as (_ & -> & _).
  rewrite showTestimonial_held.
  apply (startAutoplay_single_timer (setupEventListeners q)); reflexivity.
Qed.

(** X3. As long as every hover-leave arrives while the carousel holds no
    timer (as it does right after a hover-enter), the live timers are exactly
    the one the carousel holds: never more than one, and none while paused. *)
Theorem one_timer_when_leave_follows_pause
    (autoplay hasContainer hasPrev hasNext : bool) (cs ds : list bool)
    (es : list event) :
  let p0 := newCarousel autoplay hasContainer cs ds hasPrev hasNext in
  leaveOnlyWhenPaused es p0 = true →
  live (run es p0) = held (run es p0) ∧ (size (live (run es p0)) ≤ 1)%nat.
Proof.
  intros p0 Hes.
  assert (live (run es p0) = held (run es p0)) as Hl.
  { apply run_single_timer; [exact Hes|]. apply newCarousel_single_timer. }
  split; [exact Hl|]. rewrite Hl. apply held_size.
Qed.

Lemma one_timer_when_leave_follows_pause_witness :
  let p0 := freshCarousel true 5 in
  let es := [ClickNext; MouseEnter; MouseLeave; Tick 3; MouseEnter;
             MouseLeave; ClickPrev] in
  live (run es p0) = held (run es p0) ∧ (size (live (run es p0)) ≤ 1)%nat.
Proof.
  intros p0 es.
  apply (one_timer_when_leave_follows_pause true true true true
           (replicate 5 false) (replicate 5 false) es).
  vm_compute. reflexivity.
Defined.

(** *** A leaked timer stays *)

Lemma step_leaked (h : positive) (e : event) (p : Page) :
  timersOk p → leaked h p → leaked h (step e p).
Proof.
  intros (Hfresh & _ & _) [Hin Hne].
  assert (h ≠ nextId p) as Hnew.
  { intros ->. specialize (Hfresh _ Hin). lia. }
  assert (h ∉ held p) as Hout.
  { unfold held. destruct (autoplayTimer p) as [t|].
    - intros ->%elem_of_singleton. now apply Hne.
    - apply not_elem_of_empty. }
  assert (leaked h (pauseAutoplay p)) as Hpause.
  { split.
    - destruct (pauseAutoplay_timers p) as (_ & -> & _).
      now apply elem_of_difference.
    - destruct (pauseAutoplay_timers p) as (-> & _). discriminate. }
  destruct (step_shape e p) as [-> | [[_ ->] | [[_ ->] | [index ->]]]].
  - now split.
  - exact Hpause.
  - destruct (startAutoplay_timers p) as (Et & El & _). split.
    + rewrite El. destruct (isAutoplay p); [|exact Hin].
      now apply elem_of_union_r.
    + rewrite Et. destruct (isAutoplay p); [|exact Hne]. congruence.
  - destruct (resetAutoplay_timers (showTestimonial index p)) as (Et & El & _).
    destruct (showTestimonial_timers index p) as (_ & Hl & Hn & Ha).
    rewrite Ha, Hn in Et, El. rewrite Hl, showTestimonial_held in El.
    assert (h ∈ live p ∖ held p) by now apply elem_of_difference.
    split.
    + rewrite El. destruct (isAutoplay p); [|assumption].
      now apply elem_of_union_r.
    + rewrite Et. destruct (isAutoplay p); congruence.
Qed.

(** X4. A timer that is live but not the one the carousel holds can never be
    stopped: whatever events follow, it stays live and is never held again.
    (pauseAutoplay clears only the held handle, and a new handle is never an
    old one.) *)
Theorem leaked_timer_runs_forever
    (autoplay hasContainer hasPrev hasNext : bool) (cs ds : list bool)
    (p : Page) (h : positive) (es : list event) :
  reachable (newCarousel autoplay hasContainer cs ds hasPrev hasNext) p →
  h ∈ live p →
  autoplayTimer p ≠ Some h →
  h ∈ live (run es p) ∧ autoplayTimer (run es p) ≠ Some h.
Proof.
  intros Hr Hin Hne.
  assert (timersOk p) as Hok.
  { eapply reachable_timersOk; [apply newCarousel_timersOk | exact Hr]. }
  assert (leaked h p) as Hl by now split.
  clear Hr Hin Hne. revert p Hok Hl.
  induction es as [|e es IH]; intros p Hok Hl; [exact Hl|].
  unfold run; simpl. apply IH.
  - now apply step_timersOk.
  - now apply step_leaked.
Qed.

Lemma leaked_timer_runs_forever_witness :
  let p := run [MouseLeave] (freshCarousel true 3) in
  let es := [MouseEnter; ClickNext; ClickDot 2; MouseEnter; Tick 1] in
  1%positive ∈ live (run es p) ∧ autoplayTimer (run es p) ≠ Some 1%positive.
Proof.
  intros p es.
  apply (leaked_timer_runs_forever true true true true
           (replicate 3 false) (replicate 3 false) p 1%positive es).
  - apply reachable_run, reach_start.
  - vm_compute. reflexivity.
  - vm_compute. discriminate.
Defined.

(** X5. In every reachable state the handle in autoplayTimer, if any, is a
    live timer, and every live handle is older than the next one setInterval
    will hand out: pauseAutoplay never clears a stale handle, and a new timer
    never collides with a running one. *)
Theorem held_handle_is_live_and_fresh
    (autoplay hasContainer hasPrev hasNext : bool) (cs ds : list bool)
    (p : Page) :
  reachable (newCarousel autoplay hasContainer cs ds hasPrev hasNext) p →
  (∀ t, autoplayTimer p = Some t → t ∈ live p)
  ∧ (∀ h, h ∈ live p → (h < nextId p)%positive)
  ∧ nextId p ∉ live p.
Proof.
  intros Hr.
  assert (heldIsLive p) as Hh.
  { eapply reachable_heldIsLive; [apply newCarousel_heldIsLive | exact Hr]. }
  assert (timersOk p) as (Hfresh & _ & _).
  { eapply reachable_timersOk; [apply newCarousel_timersOk | exact Hr]. }
  split; [exact Hh|]. split; [exact Hfresh|].
  intros Hin. specialize (Hfresh _ Hin). lia.
Qed.

Lemma held_handle_is_live_and_fresh_witness :
  let p := run [MouseLeave; ClickNext; MouseLeave] (freshCarousel true 2) in
  (∀ t, autoplayTimer p = Some t → t ∈ live p)
  ∧ (∀ h, h ∈ live p → (h < nextId p)%positive)
  ∧ nextId p ∉ live p.
Proof.
  intros p.
  apply (held_handle_is_live_and_fresh true true true true
           (replicate 2 false) (replicate 2 false) p).
  apply reachable_run, reach_start.
Defined.

(** ** A carousel that was not initialised *)

(** X6. When the page has no container or no card, init returns before
    attaching any listener: in every reachable state clicks on the buttons
    and dots, hovering and swipes leave the page exactly as it is. Only the
    inline wrappers can still reach such a carousel. *)
Theorem uninitialised_ignores_listener_events
    (autoplay hasContainer hasPrev hasNext : bool) (cs ds : list bool)
    (p : Page) (e : event) :
  hasContainer = false ∨ cs = [] →
  reachable (newCarousel autoplay hasContainer cs ds hasPrev hasNext) p →
  isListenerEvent e = true →
  listening p = false ∧ step e p = p.
Proof.
  intros Hguard Hr He.
  assert (listening p = false) as Hl.
  { induction Hr as [|e' p' Hr IH].
    - unfold newCarousel, init. simpl.
      destruct Hguard as [-> | ->]; simpl; [reflexivity|].
      now rewrite orb_true_r.
    - now rewrite step_listening. }
  split; [exact Hl|].
  destruct e; try discriminate He; simpl; rewrite Hl; reflexivity.
Qed.

Lemma uninitialised_ignores_listener_events_witness :
  let p := run [InlineCurrent 2; ClickNext]
               (newCarousel true false [true; false] [true; false] true true) in
  listening p = false ∧ step (Touch 300 0) p = p.
Proof.
  intros p.
  apply (uninitialised_ignores_listener_events true false true true
           [true; false] [true; false] p (Touch 300 0)).
  - now left.
  - apply reachable_run, reach_start.
  - reflexivity.
Defined.

(** ** Walking through the cards *)

Lemma nextTestimonial_length_cards (p : Page) :
  length (cards (nextTestimonial p)) = length (cards p).
Proof.
  unfold nextTestimonial. autorewrite with frame.
  apply showTestimonial_length_cards.
Qed.

Lemma previousTestimonial_length_cards (p : Page) :
  length (cards (previousTestimonial p)) = length (cards p).
Proof.
  unfold previousTestimonial. autorewrite with frame.
  apply showTestimonial_length_cards.
Qed.

(** X7. next and previous undo each other: from an index in range,
    previous after next, and next after previous, bring the index back to
    where it was, also across the wrap-around at either end. *)
Theorem next_previous_inverse (p : Page) (i : Z) :
  currentIndex p = Num i →
  0 ≤ i < Z.of_nat (length (cards p)) →
  currentIndex (previousTestimonial (nextTestimonial p)) = Num i
  ∧ currentIndex (nextTestimonial (previousTestimonial p)) = Num i.
Proof.
  intros Hi Hr. set (N := Z.of_nat (length (cards p))) in *.
  pose proof (nextTestimonial_currentIndex p i Hi Hr) as Hn.
  pose proof (previousTestimonial_currentIndex p i Hi Hr) as Hp.
  fold N in Hn, Hp.
  assert (0 ≤ (i + 1) mod N < N ∧ 0 ≤ (i - 1 + N) mod N < N) as [Bn Bp]
    by (split; apply Z.mod_pos_bound; lia).
  pose proof (previousTestimonial_currentIndex (nextTestimonial p) _ Hn) as Hpn.
  pose proof (nextTestimonial_currentIndex (previousTestimonial p) _ Hp) as Hnp.
  cbv zeta in Hpn, Hnp.
  rewrite nextTestimonial_length_cards in Hpn.
  rewrite previousTestimonial_length_cards in Hnp.
  fold N in Hpn, Hnp. rewrite (Hpn Bn), (Hnp Bp). split; f_equal.
  - replace ((i + 1) mod N - 1 + N) with ((i + 1) mod N + (N - 1)) by lia.
    rewrite Zplus_mod_idemp_l.
    replace (i + 1 + (N - 1)) with (i + 1 * N) by lia.
    rewrite Z.mod_add by lia. apply Z.mod_small. lia.
  - rewrite Zplus_mod_idemp_l.
    replace (i - 1 + N + 1) with (i + 1 * N) by lia.
    rewrite Z.mod_add by lia. apply Z.mod_small. lia.
Qed.

Lemma next_previous_inverse_witness :
  let p := goToTestimonial (Num 3) (freshCarousel false 4) in
  currentIndex (previousTestimonial (nextTestimonial p)) = Num 3
  ∧ currentIndex (nextTestimonial (previousTestimonial p)) = Num 3.
Proof.
  intros p. apply (next_previous_inverse p 3); [reflexivity | simpl; lia].
Defined.

Lemma iter_next_index (k : nat) (p : Page) (i : Z) :
  currentIndex p = Num i →
  0 ≤ i < Z.of_nat (length (cards p)) →
  currentIndex (Nat.iter k nextTestimonial p)
  = Num ((i + Z.of_nat k) mod Z.of_nat (length (cards p)))
  ∧ length (cards (Nat.iter k nextTestimonial p)) = length (cards p).
Proof.
  intros Hi Hr. induction k as [|k [IHi IHl]].
  - simpl. rewrite Z.add_0_r, Z.mod_small by lia. auto.
  - change (Nat.iter (S k) nextTestimonial p)
      with (nextTestimonial (Nat.iter k nextTestimonial p)).
    rewrite nextTestimonial_length_cards. split; [|exact IHl].
    pose proof (nextTestimonial_currentIndex _ _ IHi) as Hs.
    cbv zeta in Hs. rewrite IHl in Hs.
    rewrite Hs by (apply Z.mod_pos_bound; lia).
    f_equal. rewrite Zplus_mod_idemp_l. f_equal. lia.
Qed.

(** X8. next cycles through all the cards: from an index in range, N calls
    of next on a carousel of N cards end on the index they started from, and
    k calls end on (i + k) mod N. *)
Theorem next_cycles (p : Page) (i : Z) (k : nat) :
  let N := length (cards p) in
  currentIndex p = Num i →
  0 ≤ i < Z.of_nat N →
  currentIndex (Nat.iter k nextTestimonial p)
  = Num ((i + Z.of_nat k) mod Z.of_nat N)
  ∧ currentIndex (Nat.iter N nextTestimonial p) = Num i.
Proof.
  intros N Hi Hr. split.
  - now apply iter_next_index.
  - destruct (iter_next_index N p i Hi Hr) as [-> _]. f_equal. fold N.
    replace (i + Z.of_nat N) with (i + 1 * Z.of_nat N) by lia.
    rewrite Z.mod_add by lia. apply Z.mod_small. lia.
Qed.

Lemma next_cycles_witness :
  let p := goToTestimonial (Num 2) (freshCarousel true 5) in
  currentIndex (Nat.iter 4 nextTestimonial p) = Num ((2 + 4) mod 5)
  ∧ currentIndex (Nat.iter 5 nextTestimonial p) = Num 2.
Proof.
  intros p. apply (next_cycles p 2 4); [reflexivity | simpl; lia].
Defined.

(** ** An index that is not a number *)

Lemma removeActiveAll_none_active (nodes : list bool) :
  activeItems (removeActiveAll nodes) = [].
Proof. apply activeFrom_removeActiveAll. Qed.

Lemma showTestimonial_NaN (p : Page) :
  showTestimonial NaN p
  = with_currentIndex NaN
      (with_renderLog (renderLog p ++ [NaN])
         (with_dom (removeActiveAll (cards p)) (removeActiveAll (dots p)) p)).
Proof. reflexivity. Qed.

(** X9. The range test of showTestimonial does not stop NaN. When the
    inline wrapper is called with something that is not a number (NaN here,
    which is what a missing argument becomes after the subtraction), every
    card and dot loses its mark and the index becomes NaN; from then on next
    and previous keep the index at NaN and leave no card active. Only a
    goTo with an index in range puts the carousel back. *)
Theorem nan_index_sticks (c : Page) :
  let q := goToTestimonial NaN c in
  currentTestimonial NaN (Some c) = Some q
  ∧ currentIndex q = NaN
  ∧ activeItems (cards q) = [] ∧ activeItems (dots q) = []
  ∧ (∀ p, currentIndex p = NaN →
       currentIndex (nextTestimonial p) = NaN
       ∧ currentIndex (previousTestimonial p) = NaN
       ∧ activeItems (cards (nextTestimonial p)) = []
       ∧ activeItems (cards (previousTestimonial p)) = [])
  ∧ (∀ v, 0 ≤ v < Z.of_nat (length (cards q)) →
       currentIndex (goToTestimonial (Num v) q) = Num v
       ∧ activeItems (cards (goToTestimonial (Num v) q)) = [Z.to_nat v]).
Proof.
  intros q. subst q. split; [reflexivity|].
  unfold goToTestimonial at 1 2 3. autorewrite with frame.
  rewrite showTestimonial_NaN. simpl.
  rewrite !removeActiveAll_none_active.
  split; [reflexivity|]. split; [reflexivity|]. split; [reflexivity|]. split.
  - intros p Hp. unfold nextTestimonial, previousTestimonial. rewrite Hp.
    simpl. autorewrite with frame. rewrite showTestimonial_NaN. simpl.
    rewrite !removeActiveAll_none_active. auto.
  - intros v Hv. unfold goToTestimonial at 1 3. autorewrite with frame.
    destruct (render_visible v (goToTestimonial NaN c)) as [Hc _];
      [exact Hv|].
    rewrite Hc, showTestimonial_inside by exact Hv. auto.
Qed.

Lemma nan_index_sticks_witness :
  let c := freshCarousel true 3 in
  let q := goToTestimonial NaN c in
  currentIndex q = NaN
  ∧ currentIndex (nextTestimonial q) = NaN
  ∧ currentIndex (goToTestimonial (Num 1) q) = Num 1.
Proof.
  intros c q.
  pose proof (nan_index_sticks c) as (_ & Hq & _ & _ & Hstick & Hback).
  split; [exact Hq|]. split.
  - destruct (Hstick q Hq) as (Hn & _). exact Hn.
  - assert (0 ≤ 1 < Z.of_nat (length (cards q))) as Hv by (simpl; lia).
    destruct (Hback 1 Hv) as (Hb & _). exact Hb.
Defined.

(** * The FAQ accordion *)

Lemma activeItems_insert (i : nat) (nodes : list bool) :
  (i < length nodes)%nat →
  activeItems (<[i := true]> (removeActiveAll nodes)) = [i].
Proof. intros Hi. unfold activeItems. now rewrite activeFrom_insert. Qed.

Lemma lookup_removeActiveAll (i : nat) (nodes : list bool) :
  (i < length nodes)%nat → removeActiveAll nodes !! i = Some false.
Proof.
  intros Hi. unfold removeActiveAll. rewrite list_lookup_fmap.
  destruct (lookup_lt_is_Some_2 nodes i Hi) as [b ->]. reflexivity.
Qed.

(** X10. The accordion keeps at most one item open. Toggling a closed item
    closes every other item and opens it, scheduling a scroll only when the
    item is outside the viewport; toggling the open item closes everything
    and schedules nothing. The number of items never changes. *)
Theorem faq_toggle_one_open (item : nat) (inViewport : bool)
    (a : Faq.Accordion) (wasOpen : bool) :
  Faq.faqItems a !! item = Some wasOpen →
  let a' := Faq.toggleFAQ item inViewport a in
  length (Faq.faqItems a') = length (Faq.faqItems a)
  ∧ activeItems (Faq.faqItems a') = (if wasOpen then [] else [item])
  ∧ Faq.scrollQueue a'
    = (if negb wasOpen && negb inViewport
       then Faq.scrollQueue a ++ [item] else Faq.scrollQueue a).
Proof.
  intros Hl a'. subst a'. unfold Faq.toggleFAQ. rewrite Hl. simpl.
  pose proof (lookup_lt_Some _ _ _ Hl) as Hi.
  destruct wasOpen; simpl.
  - rewrite length_removeActiveAll, removeActiveAll_none_active. auto.
  - rewrite length_insert, length_removeActiveAll, activeItems_insert by exact Hi.
    auto.
Qed.

Lemma faq_toggle_one_open_witness :
  let a := Faq.mkAccordion [true; false; true] [] in
  let a' := Faq.toggleFAQ 1 false a in
  length (Faq.faqItems a') = 3%nat
  ∧ activeItems (Faq.faqItems a') = [1%nat]
  ∧ Faq.scrollQueue a' = [1%nat].
Proof.
  intros a.
  apply (faq_toggle_one_open 1 false a false). reflexivity.
Defined.

(** X11. Toggling the same item twice is not a round trip for the
    accordion: the item itself ends as it began, but every other item ends
    closed, whatever was open before. *)
Theorem faq_toggle_twice (item : nat) (v1 v2 : bool) (a : Faq.Accordion)
    (wasOpen : bool) :
  Faq.faqItems a !! item = Some wasOpen →
  activeItems (Faq.faqItems (Faq.toggleFAQ item v2 (Faq.toggleFAQ item v1 a)))
  = (if wasOpen then [item] else []).
Proof.
  intros Hl. pose proof (lookup_lt_Some _ _ _ Hl) as Hi.
  unfold Faq.toggleFAQ at 2. rewrite Hl. simpl.
  destruct wasOpen; simpl.
  - unfold Faq.toggleFAQ. simpl.
    rewrite lookup_removeActiveAll by exact Hi. simpl.
    apply activeItems_insert. now rewrite length_removeActiveAll.
  - unfold Faq.toggleFAQ. simpl.
    rewrite list_lookup_insert_eq by (now rewrite length_removeActiveAll).
    simpl. apply removeActiveAll_none_active.
Qed.

Lemma faq_toggle_twice_witness :
  activeItems (Faq.faqItems
                 (Faq.toggleFAQ 0 true
                    (Faq.toggleFAQ 0 true (Faq.mkAccordion [true; true] []))))
  = [0%nat].
Proof.
  apply (faq_toggle_twice 0 true true (Faq.mkAccordion [true; true] []) true).
  reflexivity.
Defined.

(** * The products filter *)

Lemma filter_buttons_cleared (btns : list Filter.Button) :
  Filter.btnActive <$> (Filter.deactivate <$> btns)
  = removeActiveAll (Filter.btnActive <$> btns).
Proof.
  unfold removeActiveAll. rewrite <- !list_fmap_compose.
  apply list_fmap_ext. intros k b _. reflexivity.
Qed.

Lemma filter_matches_showOrHide (c : option string) (card : Filter.Card) :
  Filter.cardCategory (Filter.showOrHide c card) = Filter.cardCategory card
  ∧ Filter.display (Filter.showOrHide c card)
    = if Filter.matches c card then Filter.DisplayBlock
      else Filter.DisplayNone.
Proof.
  unfold Filter.showOrHide. destruct (Filter.matches c card); auto.
Qed.

Lemma filter_matches_category (c : option string) (a b : Filter.Card) :
  Filter.cardCategory a = Filter.cardCategory b →
  Filter.matches c a = Filter.matches c b.
Proof. intros H. unfold Filter.matches. now rewrite H. Qed.

Lemma filter_click_agrees (i : nat) (s : Filter.Products) :
  Filter.listening s = true →
  (i < length (Filter.filterBtns s))%nat →
  Filter.agrees i (Filter.click i s).
Proof.
  intros Hl Hi. unfold Filter.click. rewrite Hl.
  destruct (lookup_lt_is_Some_2 _ _ Hi) as [btn Hb]. rewrite Hb.
  unfold Filter.updateActiveFilter, Filter.filterProducts, Filter.reorderGrid.
  unfold Filter.agrees. simpl. rewrite list_lookup_fmap, Hb. simpl. split.
  - rewrite list_fmap_insert, filter_buttons_cleared. simpl.
    apply activeItems_insert. now rewrite length_fmap.
  - exists (Filter.mkButton (Filter.btnCategory btn) true). split.
    + apply list_lookup_insert_eq. now rewrite length_fmap.
    + intros k card Hk. simpl. rewrite list_lookup_fmap in Hk.
      destruct (Filter.productCards s !! k) as [card0|]; [|discriminate].
      injection Hk as <-.
      destruct (filter_matches_showOrHide (Filter.btnCategory btn) card0)
        as [Hc ->].
      now rewrite (filter_matches_category _ _ _ Hc).
Qed.

Lemma filter_fire_agrees (j k : nat) (s : Filter.Products) :
  Filter.agrees j s → Filter.agrees j (Filter.fire k s).
Proof.
  intros [Hb (btn & Hj & Hcards)]. unfold Filter.fire.
  destruct (Filter.pendingFade s !! k) as [c|]; [|split; eauto].
  unfold Filter.agrees. simpl.
  split; [exact Hb|]. exists btn. split; [exact Hj|].
  intros k' card Hk'.
  destruct (Filter.productCards s !! c) as [card0|] eqn:Hc; [|eauto].
  destruct (decide (c = k')) as [->|Hne].
  - rewrite list_lookup_insert_eq in Hk' by (eapply lookup_lt_Some; eauto).
    injection Hk' as <-. simpl.
    rewrite (Hcards _ _ Hc). reflexivity.
  - rewrite list_lookup_insert_ne in Hk' by exact Hne. eauto.
Qed.

Lemma filter_step_frame (e : Filter.event) (s : Filter.Products) :
  Filter.listening (Filter.step e s) = Filter.listening s
  ∧ length (Filter.filterBtns (Filter.step e s))
    = length (Filter.filterBtns s).
Proof.
  destruct e as [i|k]; simpl.
  - unfold Filter.click. destruct (Filter.listening s) eqn:Hl; [|auto].
    destruct (Filter.filterBtns s !! i) as [btn|]; [|auto].
    unfold Filter.updateActiveFilter. simpl. split; [exact Hl|].
    destruct ((Filter.deactivate <$> Filter.filterBtns s) !! i);
      rewrite ?length_insert, length_fmap; reflexivity.
  - unfold Filter.fire.
    destruct (Filter.pendingFade s !! k); auto.
Qed.

Lemma filter_run_agrees (es : list Filter.event) (j : nat)
    (s : Filter.Products) :
  Filter.listening s = true →
  Filter.agrees j s →
  Filter.agrees (Filter.lastClicked (length (Filter.filterBtns s)) j es)
                (Filter.run es s).
Proof.
  revert j s. induction es as [|e es IH]; intros j s Hl Hj; [exact Hj|].
  unfold Filter.run, Filter.lastClicked; simpl.
  destruct (filter_step_frame e s) as [Hl' Hn'].
  rewrite <- Hn'. apply IH; [congruence|].
  destruct e as [i|k]; simpl.
  - simpl in Hn'. rewrite Hn'.
    destruct (Nat.ltb_spec i (length (Filter.filterBtns s))).
    + now apply filter_click_agrees.
    + unfold Filter.click. rewrite Hl.
      now rewrite (lookup_ge_None_2 _ _ H).
  - now apply filter_fire_agrees.
Qed.

(** X12. Once a filter button has been clicked, the buttons and the cards
    never disagree: after any further clicks and fade-in timeouts, in any
    order, exactly one button is active (the one whose click was delivered
    last) and a card is displayed if and only if it matches that button's
    category ('all' matching every card, a button without data-category
    matching none). *)
Theorem filter_buttons_and_cards_agree
    (btns : list Filter.Button) (cards : list Filter.Card) (hasGrid : bool)
    (i : nat) (es : list Filter.event) :
  let s0 := Filter.newProductsFilter btns cards hasGrid in
  (0 < length cards)%nat →
  (i < length btns)%nat →
  let j := Filter.lastClicked (length btns) i es in
  let s := Filter.run es (Filter.click i s0) in
  activeItems (Filter.btnActive <$> Filter.filterBtns s) = [j]
  ∧ ∃ btn, Filter.filterBtns s !! j = Some btn
           ∧ ∀ k card, Filter.productCards s !! k = Some card →
               Filter.display card
               = if Filter.matches (Filter.btnCategory btn) card
                 then Filter.DisplayBlock else Filter.DisplayNone.
Proof.
  intros s0 Hc Hi j s.
  assert (Filter.listening s0 = true ∧ Filter.filterBtns s0 = btns)
    as [Hl Hb].
  { subst s0. unfold Filter.newProductsFilter, Filter.init. simpl.
    destruct (Nat.eqb_spec (length btns) 0); [lia|].
    destruct (Nat.eqb_spec (length cards) 0); [lia|]. auto. }
  destruct (filter_step_frame (Filter.Click i) s0) as [Hl' Hn'].
  simpl in Hl', Hn'.
  pose proof (filter_run_agrees es i (Filter.click i s0)) as H.
  rewrite Hn', Hb in H. apply H; [congruence|].
  apply filter_click_agrees; [exact Hl | now rewrite Hb].
Qed.

Lemma filter_buttons_and_cards_agree_witness :
  let btns := [Filter.mkButton (Some "all"%string) true;
               Filter.mkButton (Some "fish"%string) false;
               Filter.mkButton None false] in
  let cards := [Filter.mkCard "fish" Filter.DisplayUnset false;
                Filter.mkCard "shrimp" Filter.DisplayUnset false] in
  let s := Filter.run [Filter.Fire 0; Filter.Click 7; Filter.Click 1;
                       Filter.Fire 1]
             (Filter.click 2 (Filter.newProductsFilter btns cards true)) in
  activeItems (Filter.btnActive <$> Filter.filterBtns s) = [1%nat]
  ∧ ∃ btn, Filter.filterBtns s !! 1%nat = Some btn
           ∧ ∀ k card, Filter.productCards s !! k = Some card →
               Filter.display card
               = if Filter.matches (Filter.btnCategory btn) card
                 then Filter.DisplayBlock else Filter.DisplayNone.
Proof.
  intros btns cards.
  apply (filter_buttons_and_cards_agree btns cards true 2
           [Filter.Fire 0; Filter.Click 7; Filter.Click 1; Filter.Fire 1]);
    simpl; lia.
Defined.

(** * Modals *)

Lemma modal_trapFocus_frame (id : string) (p : Modal.Page) :
  Modal.bodyOverflowHidden (Modal.trapFocus id p) = Modal.bodyOverflowHidden p
  ∧ Modal.activeModal (Modal.trapFocus id p) = Modal.activeModal p
  ∧ ∀ m, Modal.isShown m (Modal.trapFocus id p) = Modal.isShown m p.
Proof.
  unfold Modal.trapFocus.
  destruct (Modal.elements p !! id) as [e|] eqn:He; [|auto].
  destruct (Modal.focusables e =? 0)%nat; [auto|]. simpl.
  split; [reflexivity|]. split; [reflexivity|].
  intros m. unfold Modal.isShown. simpl.
  destruct (decide (id = m)) as [->|Hne].
  - now rewrite lookup_insert_eq, He.
  - now rewrite lookup_insert_ne.
Qed.

Lemma modal_openModal_spec (id : string) (p : Modal.Page) (e : Modal.Element) :
  Modal.elements p !! id = Some e →
  let q := Modal.openModal id p in
  Modal.bodyOverflowHidden q = true
  ∧ Modal.activeModal q = Some id
  ∧ Modal.isShown id q = true
  ∧ ∀ m, m ≠ id → Modal.isShown m q = Modal.isShown m p.
Proof.
  intros He q. subst q. unfold Modal.openModal. rewrite He.
  set (p1 := Modal.mkPage _ _ _ _).
  destruct (modal_trapFocus_frame id p1) as (-> & -> & Hs).
  split; [reflexivity|]. split; [reflexivity|]. split.
  - rewrite Hs. unfold Modal.isShown, p1. simpl.
    now rewrite lookup_insert_eq.
  - intros m Hm. rewrite Hs. unfold Modal.isShown, p1. simpl.
    now rewrite lookup_insert_ne.
Qed.

Lemma modal_openModal_missing (id : string) (p : Modal.Page) :
  Modal.elements p !! id = None → Modal.openModal id p = p.
Proof. intros He. unfold Modal.openModal. now rewrite He. Qed.

Lemma modal_closeModal_spec (m : string) (p : Modal.Page) :
  let q := Modal.closeModal (Some m) p in
  Modal.bodyOverflowHidden q = false
  ∧ Modal.activeModal q = None
  ∧ Modal.isShown m q = false
  ∧ ∀ m', m' ≠ m → Modal.isShown m' q = Modal.isShown m' p.
Proof.
  intros q. subst q. unfold Modal.closeModal, Modal.isShown. simpl.
  split; [reflexivity|]. split; [reflexivity|].
  destruct (Modal.elements p !! m) as [e|] eqn:He.
  - split.
    + now rewrite lookup_insert_eq.
    + intros m' Hm'. now rewrite lookup_insert_ne.
  - rewrite He. auto.
Qed.

Lemma modal_closeModal_consistent (m : string) (p : Modal.Page) :
  Modal.consistent (Modal.closeModal (Some m) p).
Proof.
  destruct (modal_closeModal_spec m p) as (Ho & Ha & _).
  split.
  - rewrite Ho, Ha. symmetry. apply bool_decide_eq_false.
    intros [x Hx]. discriminate Hx.
  - intros m' Hm'. rewrite Ha in Hm'. discriminate Hm'.
Qed.

Lemma modal_step_consistent (e : Modal.event) (p : Modal.Page) :
  Modal.consistent p → Modal.consistent (Modal.step e p).
Proof.
  intros Hp. destruct e as [ |m|m|id| | ]; cbn [Modal.step].
  - unfold Modal.onEscape. destruct (Modal.activeModal p);
      [apply modal_closeModal_consistent | exact Hp].
  - destruct (Modal.elements p !! m) as [el|]; [|exact Hp].
    destruct (Modal.isModal el);
      [apply modal_closeModal_consistent | exact Hp].
  - destruct (Modal.elements p !! m) as [el|]; [|exact Hp].
    destruct (Modal.isModal el && Modal.hasCloseBtn el);
      [apply modal_closeModal_consistent | exact Hp].
  - destruct (Modal.elements p !! id) as [el|] eqn:He.
    + destruct (modal_openModal_spec id p el He) as (Ho & Ha & Hs & _).
      split.
      * rewrite Ho, Ha. symmetry. apply bool_decide_eq_true. eauto.
      * intros m Hm. rewrite Ha in Hm. injection Hm as <-. exact Hs.
    + now rewrite modal_openModal_missing.
  - unfold Modal.closeQuickView.
    destruct (Modal.getElementById _ p);
      [apply modal_closeModal_consistent | exact Hp].
  - unfold Modal.closeSuccessModal.
    destruct (Modal.getElementById _ p);
      [apply modal_closeModal_consistent | exact Hp].
Qed.

(** X13. From construction on, and after any sequence of Escape keys,
    backdrop and close-button clicks, openModal calls and the closing
    wrappers, page scrolling is locked exactly when a modal is registered as
    active, and the active modal exists and carries 'show'. *)
Theorem modal_scroll_lock_matches_active
    (els : gmap string Modal.Element) (es : list Modal.event) :
  let p := Modal.run es (Modal.newModalManager els) in
  Modal.bodyOverflowHidden p = bool_decide (is_Some (Modal.activeModal p))
  ∧ ∀ m, Modal.activeModal p = Some m → Modal.isShown m p = true.
Proof.
  intros p. subst p.
  assert (Modal.consistent (Modal.newModalManager els)) as H0.
  { split; [reflexivity|]. intros m Hm. discriminate Hm. }
  revert H0. generalize (Modal.newModalManager els).
  induction es as [|e es IH]; intros p Hp; [exact Hp|].
  unfold Modal.run; simpl. apply IH. now apply modal_step_consistent.
Qed.

(** X14. Modals do not stack. With modal a open, opening a different modal
    b and then pressing Escape closes b only: a keeps 'show', yet no modal
    is active and page scrolling is unlocked again, so a further Escape does
    nothing and a stays on screen. *)
Theorem modal_escape_closes_only_last (p : Modal.Page) (a b : string)
    (ea eb : Modal.Element) :
  a ≠ b →
  Modal.elements p !! a = Some ea →
  Modal.elements p !! b = Some eb →
  let q := Modal.onEscape (Modal.openModal b (Modal.openModal a p)) in
  Modal.isShown a q = true
  ∧ Modal.isShown b q = false
  ∧ Modal.activeModal q = None
  ∧ Modal.bodyOverflowHidden q = false
  ∧ Modal.onEscape q = q.
Proof.
  intros Hab Ha Hb q.
  destruct (modal_openModal_spec a p ea Ha) as (_ & _ & Hsa & Hoa).
  set (p1 := Modal.openModal a p) in *.
  assert (∃ eb', Modal.elements p1 !! b = Some eb') as [eb' Hb1].
  { pose proof (Hoa b (not_eq_sym Hab)) as Hs. unfold Modal.isShown in Hs.
    rewrite Hb in Hs. destruct (Modal.elements p1 !! b) eqn:E; [eauto|].
    subst p1. unfold Modal.openModal in E. rewrite Ha in E.
    unfold Modal.trapFocus in E. simpl in E.
    rewrite lookup_insert_eq in E.
    destruct (Modal.focusables (Modal.withShow true ea) =? 0)%nat;
      simpl in E; rewrite ?lookup_insert_ne in E by exact Hab;
      rewrite ?lookup_insert_ne in E by exact Hab; congruence. }
  destruct (modal_openModal_spec b p1 eb' Hb1) as (_ & Hab2 & _ & Hob).
  set (p2 := Modal.openModal b p1) in *.
  assert (q = Modal.closeModal (Some b) p2) as Hq.
  { subst q. unfold Modal.onEscape. now rewrite Hab2. }
  destruct (modal_closeModal_spec b p2) as (Ho & Hact & Hsb & Hoc).
  rewrite <- Hq in Ho, Hact, Hsb, Hoc.
  split.
  { rewrite (Hoc a Hab), (Hob a Hab). exact Hsa. }
  split; [exact Hsb|]. split; [exact Hact|]. split; [exact Ho|].
  unfold Modal.onEscape. now rewrite Hact.
Qed.

Lemma modal_escape_closes_only_last_witness :
  let els : gmap string Modal.Element :=
    <["quickViewModal"%string := Modal.mkElement true false true 2 0]>
      (<["successModal"%string := Modal.mkElement true false true 1 0]> ∅) in
  let q := Modal.onEscape
             (Modal.openModal "successModal"
                (Modal.openModal "quickViewModal"
                   (Modal.newModalManager els))) in
  Modal.isShown "quickViewModal" q = true
  ∧ Modal.isShown "successModal" q = false
  ∧ Modal.activeModal q = None
  ∧ Modal.bodyOverflowHidden q = false
  ∧ Modal.onEscape q = q.
Proof.
  intros els.
  apply (modal_escape_closes_only_last (Modal.newModalManager els)
           "quickViewModal" "successModal"
           (Modal.mkElement true false true 2 0)
           (Modal.mkElement true false true 1 0)).
  - discriminate.
  - reflexivity.
  - reflexivity.
Defined.

(** * Navigation *)

(** ** The mobile menu *)

Lemma nav_closeMobileMenu_spec (p : Nav.Page) (t m : bool) :
  Nav.navToggle p = Some t →
  Nav.navMenu p = Some m →
  ∃ q, Nav.closeMobileMenu p = Nav.Done q
       ∧ Nav.menuState q = (Some false, Some false, false, false)
       ∧ Nav.navLinks q = Nav.navLinks p
       ∧ Nav.scrollTargets q = Nav.scrollTargets p
       ∧ Nav.menuListeners q = Nav.menuListeners p
       ∧ Nav.navbar q = Nav.navbar p.
Proof.
  intros Ht Hm. unfold Nav.closeMobileMenu. simpl. rewrite Ht. simpl.
  rewrite Hm. eexists. split; [reflexivity|]. simpl. auto 10.
Qed.

Lemma nav_menuSynced_state (p : Nav.Page) :
  Nav.menuSynced p ↔
  Nav.menuState p
  = (Some (Nav.isMobileMenuOpen p), Some (Nav.isMobileMenuOpen p),
     Nav.isMobileMenuOpen p, Nav.isMobileMenuOpen p).
Proof.
  unfold Nav.menuSynced, Nav.menuState. split.
  - intros (-> & -> & ->). reflexivity.
  - intros [= -> -> ->]. auto.
Qed.

Lemma nav_closed_synced (q : Nav.Page) :
  Nav.menuState q = (Some false, Some false, false, false) →
  Nav.menuSynced q.
Proof.
  unfold Nav.menuState. intros [= Ht Hm Ho Hb].
  unfold Nav.menuSynced. rewrite Ho. auto.
Qed.

Lemma nav_toggleMobileMenu_synced (p : Nav.Page) :
  Nav.menuSynced p →
  ∃ q, Nav.toggleMobileMenu p = Nav.Done q
       ∧ Nav.menuSynced q
       ∧ Nav.isMobileMenuOpen q = negb (Nav.isMobileMenuOpen p)
       ∧ Nav.menuListeners q = Nav.menuListeners p.
Proof.
  intros (Ht & Hm & Ho). unfold Nav.toggleMobileMenu. simpl.
  rewrite Ht. simpl. rewrite Hm. simpl.
  destruct (Nav.isMobileMenuOpen p) eqn:Hopen; simpl.
  - eexists. split; [reflexivity|]. unfold Nav.menuSynced. simpl. auto.
  - unfold Nav.animateMenuItems. simpl.
    eexists. split; [reflexivity|]. unfold Nav.menuSynced. simpl. auto.
Qed.

Lemma nav_setActiveLink_menu (i : nat) (p : Nav.Page) :
  Nav.menuState (Nav.setActiveLink i p) = Nav.menuState p
  ∧ Nav.menuListeners (Nav.setActiveLink i p) = Nav.menuListeners p.
Proof. split; reflexivity. Qed.

Lemma nav_updateActiveLink_menu (y : Z) (p : Nav.Page) :
  Nav.menuState (Nav.updateActiveLink y p) = Nav.menuState p
  ∧ Nav.menuListeners (Nav.updateActiveLink y p) = Nav.menuListeners p.
Proof.
  unfold Nav.updateActiveLink. generalize (Nav.sections p) as secs.
  intros secs. revert p. induction secs as [|s secs IH]; intros p.
  - split; reflexivity.
  - simpl. destruct (Nav.contains (y + 100) s); [|apply IH].
    destruct (Nav.sectionLink s) as [l|]; [|apply IH].
    destruct (IH (Nav.setActiveLink l p)) as [-> ->]. split; reflexivity.
Qed.

Lemma nav_handleScroll_menu (y : Z) (p : Nav.Page) :
  Nav.menuState (Nav.handleScroll y p) = Nav.menuState p
  ∧ Nav.menuListeners (Nav.handleScroll y p) = Nav.menuListeners p.
Proof.
  unfold Nav.handleScroll. destruct (Nav.navbar p); [|split; reflexivity].
  destruct (nav_updateActiveLink_menu y
              (Nav.withNavbar (Some (100 <? y)) p)) as [-> ->].
  split; reflexivity.
Qed.

Lemma nav_menuSynced_ext (p q : Nav.Page) :
  Nav.menuState q = Nav.menuState p → Nav.menuSynced p → Nav.menuSynced q.
Proof.
  unfold Nav.menuState, Nav.menuSynced.
  intros [= -> -> -> ->]. auto.
Qed.

Lemma nav_close_if_open_synced (p : Nav.Page) :
  Nav.menuSynced p →
  Nav.menuSynced
    (Nav.page (if Nav.isMobileMenuOpen p then Nav.closeMobileMenu p
               else Nav.Done p)).
Proof.
  intros Hp. destruct (Nav.isMobileMenuOpen p) eqn:Ho; [|exact Hp].
  destruct Hp as (Ht & Hm & _).
  destruct (nav_closeMobileMenu_spec p _ _ Ht Hm) as (q & -> & Hq & _).
  now apply nav_closed_synced.
Qed.

Lemma nav_linkClick_synced (l : Nav.Link) (i : nat) (p : Nav.Page) :
  Nav.menuSynced p → Nav.menuSynced (Nav.page (Nav.linkClick l i p)).
Proof.
  intros Hp. unfold Nav.linkClick.
  destruct (Nav.href l) as [ | | |[target|]]; simpl;
    try (now apply nav_close_if_open_synced); try exact Hp.
  destruct Hp as (Ht & Hm & _).
  destruct (nav_closeMobileMenu_spec (Nav.smoothScrollTo target p) _ _ Ht Hm)
    as (q & -> & Hq & _).
  cbn [Nav.andThen]. apply (nav_close_if_open_synced (Nav.setActiveLink i q)).
  apply (nav_menuSynced_ext q); [exact (proj1 (nav_setActiveLink_menu i q))|].
  now apply nav_closed_synced.
Qed.

Lemma nav_step_synced (e : Nav.event) (p : Nav.Page) :
  Nav.menuSynced p → Nav.menuSynced (Nav.step e p).
Proof.
  intros Hp. destruct e as [ |inside| |i|y|w]; simpl.
  - destruct (Nav.menuListeners p); [|exact Hp].
    destruct (nav_toggleMobileMenu_synced p Hp) as (q & -> & Hq & _).
    exact Hq.
  - destruct (Nav.menuListeners p); [|exact Hp].
    unfold Nav.documentClick. destruct (Nav.navbar p); [|exact Hp].
    destruct (negb inside); simpl; [|exact Hp].
    now apply nav_close_if_open_synced.
  - destruct (Nav.menuListeners p); [|exact Hp].
    now apply nav_close_if_open_synced.
  - destruct (Nav.navLinks p !! i) as [l|]; [|exact Hp].
    now apply nav_linkClick_synced.
  - apply (nav_menuSynced_ext p);
      [exact (proj1 (nav_handleScroll_menu y p)) | exact Hp].
  - unfold Nav.handleResize. destruct (768 <=? w); simpl; [|exact Hp].
    now apply nav_close_if_open_synced.
Qed.

(** X15. On a page that has the toggle button and the menu, both without
    'active' at load, the mobile menu never gets out of step: after any
    sequence of toggle clicks, document clicks, Escape keys, link clicks,
    scrolls and resizes, the toggle and the menu carry 'active' exactly when
    STATE.isMobileMenuOpen is set, and page scrolling is locked exactly
    then. *)
Theorem nav_menu_stays_in_sync
    (hasNavbar : bool) (links : list Nav.Link) (secs : list Nav.Section)
    (scrollY : Z) (es : list Nav.event) :
  let p := Nav.run es (Nav.init scrollY (Nav.closedPage hasNavbar links secs)) in
  Nav.navToggle p = Some (Nav.isMobileMenuOpen p)
  ∧ Nav.navMenu p = Some (Nav.isMobileMenuOpen p)
  ∧ Nav.bodyOverflowHidden p = Nav.isMobileMenuOpen p.
Proof.
  intros p. subst p.
  assert (Nav.menuSynced (Nav.init scrollY (Nav.closedPage hasNavbar links secs)))
    as H0.
  { unfold Nav.init.
    set (p0 := Nav.closedPage hasNavbar links secs).
    set (p1 := Nav.handleScroll scrollY p0).
    set (p2 := Nav.handleMobileMenu p1).
    assert (Nav.menuSynced p1) as H1.
    { apply (nav_menuSynced_ext p0);
        [exact (proj1 (nav_handleScroll_menu scrollY p0))|].
      unfold Nav.menuSynced. simpl. auto. }
    assert (Nav.menuSynced p2) as H2.
    { subst p2. unfold Nav.handleMobileMenu.
      destruct (Nav.navToggle p1), (Nav.navMenu p1); exact H1. }
    apply (nav_menuSynced_ext p2);
      [exact (proj1 (nav_updateActiveLink_menu scrollY p2)) | exact H2]. }
  revert H0. generalize (Nav.init scrollY (Nav.closedPage hasNavbar links secs)).
  induction es as [|e es IH]; intros p Hp; [exact Hp|].
  unfold Nav.run; simpl. apply IH. now apply nav_step_synced.
Qed.

(** ** The active link *)

Lemma nav_clear_mark (l : Nav.Link) :
  Nav.clearActive (Nav.markActive l) = Nav.clearActive l.
Proof. reflexivity. Qed.

Lemma nav_clear_clear (links : list Nav.Link) :
  Nav.clearActive <$> (Nav.clearActive <$> links) = Nav.clearActive <$> links.
Proof.
  rewrite <- list_fmap_compose. apply list_fmap_ext. intros k l _. reflexivity.
Qed.

(** Setting a link forgets which link was set before. *)
Lemma nav_setActiveLink_absorbs (i j : nat) (p : Nav.Page) :
  Nav.setActiveLink j (Nav.setActiveLink i p) = Nav.setActiveLink j p.
Proof.
  unfold Nav.setActiveLink, Nav.withLinks. simpl.
  assert (∀ links : list Nav.Link,
            Nav.clearActive <$> links = Nav.clearActive <$> Nav.navLinks p →
            (match (Nav.clearActive <$> links) !! j with
             | Some l => <[j := Nav.markActive l]> (Nav.clearActive <$> links)
             | None => Nav.clearActive <$> links
             end)
            = match (Nav.clearActive <$> Nav.navLinks p) !! j with
              | Some l =>
                  <[j := Nav.markActive l]> (Nav.clearActive <$> Nav.navLinks p)
              | None => Nav.clearActive <$> Nav.navLinks p
              end) as Hsame by (intros links ->; reflexivity).
  f_equal. apply Hsame.
  destruct ((Nav.clearActive <$> Nav.navLinks p) !! i) as [l|] eqn:Hi.
  - rewrite list_fmap_insert, nav_clear_mark, nav_clear_clear.
    apply list_insert_id. rewrite Hi.
    f_equal. rewrite list_lookup_fmap in Hi.
    destruct (Nav.navLinks p !! i); [|discriminate].
    injection Hi as <-. reflexivity.
  - apply nav_clear_clear.
Qed.

Lemma nav_updateActiveLink_fold (scrollPos : Z) (secs : list Nav.Section)
    (p : Nav.Page) :
  foldl (λ q s,
           if Nav.contains scrollPos s then
             match Nav.sectionLink s with
             | Some link => Nav.setActiveLink link q
             | None => q
             end
           else q) p secs
  = match last (Nav.hits scrollPos secs) with
    | Some l => Nav.setActiveLink l p
    | None => p
    end.
Proof.
  revert p. induction secs as [|s secs IH]; intros p; [reflexivity|].
  simpl. rewrite IH. unfold Nav.hits. simpl.
  fold (Nav.hits scrollPos secs).
  destruct (Nav.contains scrollPos s); [|reflexivity].
  destruct (Nav.sectionLink s) as [l|]; [|reflexivity].
  rewrite last_cons.
  destruct (last (Nav.hits scrollPos secs)) as [l'|]; [|reflexivity].
  apply nav_setActiveLink_absorbs.
Qed.

Lemma nav_setActiveLink_active (i : nat) (p : Nav.Page) :
  (i < length (Nav.navLinks p))%nat →
  activeItems (Nav.linkActive <$> Nav.navLinks (Nav.setActiveLink i p)) = [i].
Proof.
  intros Hi. unfold Nav.setActiveLink. simpl.
  destruct (lookup_lt_is_Some_2 (Nav.clearActive <$> Nav.navLinks p) i)
    as [l Hl]; [now rewrite length_fmap|].
  rewrite Hl, list_fmap_insert. simpl.
  replace (Nav.linkActive <$> (Nav.clearActive <$> Nav.navLinks p))
    with (removeActiveAll (Nav.linkActive <$> Nav.navLinks p)).
  - apply activeItems_insert. now rewrite length_fmap.
  - unfold removeActiveAll. rewrite <- !list_fmap_compose.
    apply list_fmap_ext. intros k x _. reflexivity.
Qed.

(** X16. updateActiveLink marks the link of the last section, in document
    order, that contains the scroll position plus 100 (both ends of a
    section included) and has a nav link: the page ends exactly as after one
    setActiveLink with that link, with that link the only active one. When
    no such section exists, nothing changes. *)
Theorem nav_last_section_wins (scrollY : Z) (p : Nav.Page) :
  (∀ s l, s ∈ Nav.sections p → Nav.sectionLink s = Some l →
          (l < length (Nav.navLinks p))%nat) →
  match last (Nav.hits (scrollY + 100) (Nav.sections p)) with
  | Some l =>
      Nav.updateActiveLink scrollY p = Nav.setActiveLink l p
      ∧ activeItems
          (Nav.linkActive <$> Nav.navLinks (Nav.updateActiveLink scrollY p))
        = [l]
  | None => Nav.updateActiveLink scrollY p = p
  end.
Proof.
  intros Hwf. unfold Nav.updateActiveLink.
  rewrite nav_updateActiveLink_fold.
  destruct (last (Nav.hits (scrollY + 100) (Nav.sections p))) as [l|] eqn:Hl;
    [|reflexivity].
  split; [reflexivity|]. apply nav_setActiveLink_active.
  apply last_Some_elem_of in Hl. unfold Nav.hits in Hl.
  apply list_elem_of_omap in Hl as (s & Hs & Hsl).
  destruct (Nav.contains (scrollY + 100) s); [|discriminate].
  now apply (Hwf s l).
Qed.

Lemma nav_last_section_wins_witness :
  let links := [Nav.mkLink true (Nav.HrefAnchor (Some 0%nat)) true false None;
                Nav.mkLink false (Nav.HrefAnchor (Some 1%nat)) true false None;
                Nav.mkLink false Nav.HrefOther true false None] in
  let secs := [Nav.mkSection 0 600 (Some 0%nat);
               Nav.mkSection 600 400 (Some 1%nat);
               Nav.mkSection 1000 300 None] in
  let p := Nav.closedPage true links secs in
  Nav.updateActiveLink 500 p = Nav.setActiveLink 1 p
  ∧ activeItems (Nav.linkActive <$> Nav.navLinks (Nav.updateActiveLink 500 p))
    = [1%nat].
Proof.
  intros links secs p.
  apply (nav_last_section_wins 500 p).
  intros s l Hs Hl. subst p secs. simpl in Hs.
  apply elem_of_cons in Hs as [->|Hs]; [injection Hl as <-; simpl; lia|].
  apply elem_of_cons in Hs as [->|Hs]; [injection Hl as <-; simpl; lia|].
  apply elem_of_cons in Hs as [->|Hs]; [discriminate Hl|].
  now apply elem_of_nil in Hs.
Defined.

(** ** Link clicks that stop half way *)

(** X17. Two ways a nav-link click ends in an exception. A link whose href
    starts with '#' but is no valid selector (a bare '#') throws at
    document.querySelector before anything is written, so an open mobile
    menu stays open. A link to an existing anchor on a page without
    #nav-toggle requests the scroll, clears STATE.isMobileMenuOpen and then
    throws in closeMobileMenu, so the clicked link is never marked
    active. *)
Theorem nav_link_click_stops (p : Nav.Page) (l : Nav.Link) (i : nat) :
  (Nav.href l = Nav.HrefBadSelector → Nav.linkClick l i p = Nav.Threw p)
  ∧ (∀ target, Nav.href l = Nav.HrefAnchor (Some target) →
       Nav.navToggle p = None →
       ∃ q, Nav.linkClick l i p = Nav.Threw q
            ∧ Nav.scrollTargets q = Nav.scrollTargets p ++ [target]
            ∧ Nav.isMobileMenuOpen q = false
            ∧ Nav.navLinks q = Nav.navLinks p).
Proof.
  split.
  - intros Hh. unfold Nav.linkClick. rewrite Hh. reflexivity.
  - intros target Hh Ht. unfold Nav.linkClick. rewrite Hh.
    unfold Nav.closeMobileMenu. simpl. rewrite Ht. simpl.
    eexists. split; [reflexivity|]. simpl. auto.
Qed.

Lemma nav_link_click_stops_witness :
  let l := Nav.mkLink false (Nav.HrefAnchor (Some 4%nat)) false false None in
  let p := Nav.mkPage (Some false) None (Some false) [l] [] false false false
                      [] in
  ∃ q, Nav.linkClick l 0 p = Nav.Threw q
       ∧ Nav.scrollTargets q = [4%nat]
       ∧ Nav.isMobileMenuOpen q = false
       ∧ Nav.navLinks q = [l].
Proof.
  intros l p.
  apply (proj2 (nav_link_click_stops p l 0) 4%nat); reflexivity.
Defined.

(** * debounce and throttle *)

Lemma debounce_step_onlyLatest {A} (e : Debounce.event A)
    (s : Debounce.State A) :
  Debounce.onlyLatest s → Debounce.onlyLatest (Debounce.step e s).
Proof.
  intros Hs. destruct e as [args|h]; simpl.
  - unfold Debounce.executedFunction. intros h a. simpl.
    destruct (decide (Debounce.nextId (Debounce.clearTimeout
                                         (Debounce.timeout s) s) = h))
      as [<-|Hne]; [reflexivity|].
    rewrite lookup_insert_ne by exact Hne.
    unfold Debounce.clearTimeout.
    destruct (Debounce.timeout s) as [t|] eqn:Ht; simpl.
    + intros Hl. apply lookup_delete_Some in Hl as [Hth Hl].
      specialize (Hs _ _ Hl). congruence.
    + intros Hl. specialize (Hs _ _ Hl). congruence.
  - unfold Debounce.fire.
    destruct (Debounce.pending s !! h) as [args|] eqn:Hh; [|exact Hs].
    intros h' a. simpl. unfold Debounce.clearTimeout.
    destruct (Debounce.timeout s) as [t|] eqn:Ht; simpl.
    + intros Hl. apply lookup_delete_Some in Hl as [_ Hl].
      apply lookup_delete_Some in Hl as [_ Hl].
      specialize (Hs _ _ Hl). congruence.
    + intros Hl. apply lookup_delete_Some in Hl as [_ Hl].
      specialize (Hs _ _ Hl). congruence.
Qed.

Lemma debounce_run_onlyLatest {A} (es : list (Debounce.event A))
    (s : Debounce.State A) :
  Debounce.onlyLatest s → Debounce.onlyLatest (Debounce.run es s).
Proof.
  revert s. induction es as [|e es IH]; intros s Hs; [exact Hs|].
  unfold Debounce.run; simpl. apply IH. now apply debounce_step_onlyLatest.
Qed.

Lemma debounce_call_spec {A} (a : A) (s : Debounce.State A) :
  Debounce.onlyLatest s →
  let s' := Debounce.executedFunction a s in
  Debounce.timeout s' = Some (Debounce.nextId s)
  ∧ Debounce.pending s' = {[Debounce.nextId s := a]}
  ∧ Debounce.calls s' = Debounce.calls s.
Proof.
  intros Hs s'. subst s'. unfold Debounce.executedFunction.
  assert (Debounce.pending (Debounce.clearTimeout (Debounce.timeout s) s) = ∅
          ∧ Debounce.nextId (Debounce.clearTimeout (Debounce.timeout s) s)
            = Debounce.nextId s
          ∧ Debounce.calls (Debounce.clearTimeout (Debounce.timeout s) s)
            = Debounce.calls s) as (Hp & Hn & Hc).
  { unfold Debounce.clearTimeout.
    destruct (Debounce.timeout s) as [t|] eqn:Ht; simpl.
    - split; [|auto]. apply map_eq. intros h. rewrite lookup_empty.
      destruct (delete t (Debounce.pending s) !! h) as [x|] eqn:Hl;
        [|reflexivity].
      apply lookup_delete_Some in Hl as [Hth Hl].
      specialize (Hs _ _ Hl). congruence.
    - split; [|auto]. apply map_eq. intros h. rewrite lookup_empty.
      destruct (Debounce.pending s !! h) as [x|] eqn:Hl; [|reflexivity].
      specialize (Hs _ _ Hl). congruence. }
  simpl. rewrite Hp, Hn, Hc. auto.
Qed.

Lemma debounce_burst {A} (rest : list A) (a : A) (s : Debounce.State A) :
  Debounce.onlyLatest s →
  let s' := foldl (λ q x, Debounce.executedFunction x q) s (a :: rest) in
  Debounce.onlyLatest s'
  ∧ Debounce.calls s' = Debounce.calls s
  ∧ ∃ h, Debounce.timeout s' = Some h
         ∧ Debounce.pending s' = {[h := default a (last rest)]}.
Proof.
  revert a s. induction rest as [|b rest IH]; intros a s Hs s'; subst s';
    cbn [foldl].
  - destruct (debounce_call_spec a s Hs) as (Ht & Hp & Hc).
    split; [apply (debounce_step_onlyLatest (Debounce.Call a) s Hs)|].
    split; [exact Hc|]. eauto.
  - pose proof (debounce_step_onlyLatest (Debounce.Call a) s Hs) as Hs1.
    cbn [Debounce.step] in Hs1.
    pose proof (IH b _ Hs1) as H. cbv zeta in H. cbn [foldl] in H.
    destruct H as (Ho & Hc & h & Ht & Hp).
    destruct (debounce_call_spec a s Hs) as (_ & _ & Hc1).
    split; [exact Ho|]. split; [now rewrite Hc|].
    exists h. split; [exact Ht|]. rewrite Hp, last_cons.
    destruct (last rest); reflexivity.
Qed.

(** X18. debounce passes on only the last call of a burst. At any point of
    any history of calls and timeouts, a run of one or more calls leaves
    exactly one timeout pending, invokes func for none of them, and when
    that timeout fires func is invoked exactly once, with the arguments of
    the last call; the earlier calls of the run are never delivered. *)
Theorem debounce_delivers_last_call {A} (es : list (Debounce.event A))
    (a : A) (rest : list A) :
  let s := Debounce.run es Debounce.debounce in
  let s' := foldl (λ q x, Debounce.executedFunction x q) s (a :: rest) in
  Debounce.calls s' = Debounce.calls s
  ∧ ∃ h, Debounce.pending s' = {[h := default a (last rest)]}
         ∧ Debounce.calls (Debounce.fire h s')
           = Debounce.calls s ++ [default a (last rest)]
         ∧ Debounce.pending (Debounce.fire h s') = ∅.
Proof.
  intros s s'.
  assert (Debounce.onlyLatest s) as Hs.
  { apply debounce_run_onlyLatest. intros h x Hl.
    simpl in Hl. rewrite lookup_empty in Hl. discriminate Hl. }
  destruct (debounce_burst rest a s Hs) as (_ & Hc & h & Ht & Hp).
  fold s' in Hc, Ht, Hp.
  split; [exact Hc|]. exists h. split; [exact Hp|].
  unfold Debounce.fire. rewrite Hp, lookup_singleton_eq. simpl.
  rewrite Ht. simpl. rewrite Hc. split; [reflexivity|].
  rewrite delete_singleton_eq. apply delete_empty.
Qed.

Lemma throttle_step_oneReset {A} (e : Throttle.event A)
    (s : Throttle.State A) :
  Throttle.oneReset s → Throttle.oneReset (Throttle.step e s).
Proof.
  intros Hs. destruct e as [args|h]; simpl.
  - unfold Throttle.call.
    destruct (Throttle.inThrottle s) eqn:Hin; [exact Hs|].
    destruct Hs as (Hoff & Hon & Hfresh).
    split; [discriminate|]. split; simpl.
    + intros _. exists (Throttle.nextId s).
      rewrite (Hoff Hin). apply union_empty_r_L.
    + intros h Hh. rewrite (Hoff Hin), union_empty_r_L in Hh.
      apply elem_of_singleton in Hh. subst h. lia.
  - unfold Throttle.fire.
    destruct (decide (h ∈ Throttle.resets s)) as [Hh|Hh]; [|exact Hs].
    destruct Hs as (Hoff & Hon & Hfresh).
    assert (Throttle.resets s = {[h]}) as Hr.
    { destruct (Throttle.inThrottle s) eqn:Hin.
      - destruct (Hon eq_refl) as [h' Hr]. rewrite Hr in Hh.
        apply elem_of_singleton in Hh. now subst h'.
      - rewrite (Hoff eq_refl) in Hh. now apply not_elem_of_empty in Hh. }
    split; simpl.
    + intros _. rewrite Hr. apply difference_diag_L.
    + split; [discriminate|].
      intros h' Hh'. apply Hfresh.
      now apply elem_of_difference in Hh' as [Hh' _].
Qed.

Lemma throttle_run_oneReset {A} (es : list (Throttle.event A))
    (s : Throttle.State A) :
  Throttle.oneReset s → Throttle.oneReset (Throttle.run es s).
Proof.
  revert s. induction es as [|e es IH]; intros s Hs; [exact Hs|].
  unfold Throttle.run; simpl. apply IH. now apply throttle_step_oneReset.
Qed.

Lemma throttle_calls_oneReset {A} (xs : list A) (s : Throttle.State A) :
  Throttle.oneReset s →
  Throttle.oneReset (foldl (λ q x, Throttle.call x q) s xs).
Proof.
  revert s. induction xs as [|x xs IH]; intros s Hs; [exact Hs|].
  simpl. apply IH. apply (throttle_step_oneReset (Throttle.Call x) s Hs).
Qed.

Lemma throttle_calls_dropped {A} (args : list A) (s : Throttle.State A) :
  Throttle.inThrottle s = true →
  foldl (λ q x, Throttle.call x q) s args = s.
Proof.
  intros Hin. induction args as [|a args IH]; [reflexivity|].
  simpl. unfold Throttle.call at 2. rewrite Hin. exact IH.
Qed.

(** X19. throttle drops, it does not defer. At any point of any history of
    calls and timeouts: while the flag is set every call is discarded
    without a trace; when the flag is clear, a run of calls invokes func
    for the first one only and leaves exactly one reset timeout pending;
    and when a pending reset fires, the flag is clear and no timeout is
    left, with nothing delivered for the discarded calls. *)
Theorem throttle_delivers_first_call {A} (es : list (Throttle.event A))
    (a : A) (rest : list A) :
  let s := Throttle.run es Throttle.throttle in
  let s' := foldl (λ q x, Throttle.call x q) s (a :: rest) in
  (Throttle.inThrottle s = true → s' = s)
  ∧ (Throttle.inThrottle s = false →
       Throttle.calls s' = Throttle.calls s ++ [a]
       ∧ Throttle.resets s' = {[Throttle.nextId s]})
  ∧ (∀ h, h ∈ Throttle.resets s' →
       Throttle.inThrottle (Throttle.fire h s') = false
       ∧ Throttle.resets (Throttle.fire h s') = ∅
       ∧ Throttle.calls (Throttle.fire h s') = Throttle.calls s').
Proof.
  intros s s'.
  assert (Throttle.oneReset s) as Hs.
  { apply throttle_run_oneReset. repeat split; simpl.
    - discriminate.
    - intros h Hh. now apply not_elem_of_empty in Hh. }
  assert (Throttle.oneReset s') as Hs'.
  { subst s'. now apply throttle_calls_oneReset. }
  split; [|split].
  - intros Hin. now apply throttle_calls_dropped.
  - intros Hin. subst s'. simpl.
    destruct Hs as (Hoff & _ & _).
    rewrite throttle_calls_dropped
      by (unfold Throttle.call; rewrite Hin; reflexivity).
    unfold Throttle.call. rewrite Hin. simpl.
    rewrite (Hoff Hin). split; [reflexivity|]. apply union_empty_r_L.
  - intros h Hh. unfold Throttle.fire.
    destruct (decide (h ∈ Throttle.resets s')); [|contradiction]. simpl.
    split; [reflexivity|]. split; [|reflexivity].
    destruct Hs' as (Hoff & Hon & _).
    destruct (Throttle.inThrottle s') eqn:Hin.
    + destruct (Hon eq_refl) as [h' Hr]. rewrite Hr in Hh |- *.
      apply elem_of_singleton in Hh. subst h'. apply difference_diag_L.
    + rewrite (Hoff eq_refl) in Hh. now apply not_elem_of_empty in Hh.
Qed.

Lemma throttle_delivers_first_call_witness :
  let s := Throttle.run [Throttle.Call 7%nat; Throttle.Fire 1%positive]
             Throttle.throttle in
  let s' := foldl (λ q x, Throttle.call x q) s [8%nat; 9%nat] in
  Throttle.calls s' = [7%nat; 8%nat]
  ∧ Throttle.resets s' = {[2%positive]}
  ∧ Throttle.inThrottle (Throttle.fire 2 s') = false.
Proof.
  intros s s'.
  pose proof (throttle_delivers_first_call
                [Throttle.Call 7%nat; Throttle.Fire 1%positive] 8%nat [9%nat])
    as (_ & Hfirst & Hfire).
  destruct (Hfirst eq_refl) as [Hc Hr].
  split; [exact Hc|]. split; [exact Hr|].
  apply (Hfire 2%positive). vm_compute. reflexivity.
Defined.

(** * The statistics counters *)

Lemma stats_onEntry_atMostOnce (s : Stats.State) (b : bool) :
  Stats.atMostOnce s →
  Stats.atMostOnce (Stats.onEntry s b)
  ∧ Stats.counters (Stats.onEntry s b) = Stats.counters s.
Proof.
  intros Hs. unfold Stats.onEntry.
  destruct b; simpl; [|auto].
  destruct (Stats.hasAnimated s) eqn:Ha; simpl; [auto|].
  split; [|reflexivity]. right. simpl.
  destruct Hs as [[_ ->]|[Hc _]]; [auto | congruence].
Qed.

Lemma stats_entries_atMostOnce (entries : list bool) (s : Stats.State) :
  Stats.atMostOnce s →
  Stats.atMostOnce (foldl Stats.onEntry s entries)
  ∧ Stats.counters (foldl Stats.onEntry s entries) = Stats.counters s.
Proof.
  revert s. induction entries as [|b entries IH]; intros s Hs; [auto|].
  simpl. destruct (stats_onEntry_atMostOnce s b Hs) as [H1 H2].
  destruct (IH _ H1) as [H3 H4]. split; [exact H3 | congruence].
Qed.

Lemma stats_callback_atMostOnce (entries : list bool) (s : Stats.State) :
  Stats.atMostOnce s →
  Stats.atMostOnce (Stats.callback entries s)
  ∧ Stats.counters (Stats.callback entries s) = Stats.counters s.
Proof.
  intros Hs. unfold Stats.callback.
  destruct (Stats.observing s); [|auto].
  now apply stats_entries_atMostOnce.
Qed.

Lemma stats_run_atMostOnce (batches : list (list bool)) (s : Stats.State) :
  Stats.atMostOnce s →
  Stats.atMostOnce (Stats.run batches s)
  ∧ Stats.counters (Stats.run batches s) = Stats.counters s.
Proof.
  revert s. induction batches as [|b batches IH]; intros s Hs; [auto|].
  unfold Stats.run; simpl.
  destruct (stats_callback_atMostOnce b s Hs) as [H1 H2].
  destruct (IH _ H1) as [H3 H4]. split; [exact H3|].
  unfold Stats.run in H4. congruence.
Qed.

(** X20. The counters are animated at most once. Whatever batches of
    intersection entries the observer delivers, and however many entries of
    one batch are intersecting, either no timeout has been set, or exactly
    one per counter: counter k is started after k * 200 ms with its own
    parsed target, hasAnimated is set and the observer is disconnected. *)
Theorem stats_animates_at_most_once
    (targets : list number) (batches : list (list bool)) :
  let s := Stats.run batches (Stats.newStatisticsCounter targets) in
  (Stats.hasAnimated s = false ∧ Stats.scheduled s = [])
  ∨ (Stats.hasAnimated s = true ∧ Stats.observing s = false
     ∧ Stats.scheduled s
       = imap (λ k t, Stats.mkTimeout (Z.of_nat k * 200) k t) targets).
Proof.
  intros s.
  assert (Stats.atMostOnce (Stats.newStatisticsCounter targets)
          ∧ Stats.counters (Stats.newStatisticsCounter targets) = targets)
    as [H0 Hc0].
  { unfold Stats.newStatisticsCounter, Stats.init. simpl.
    destruct (length targets =? 0)%nat; split; try reflexivity;
      left; split; reflexivity. }
  destruct (stats_run_atMostOnce batches _ H0) as [Hs Hc].
  fold s in Hs, Hc. rewrite Hc0 in Hc.
  destruct Hs as [Hs|(Ha & Ho & Hsch)]; [left; exact Hs|].
  right. rewrite Hsch, Hc. auto.
Qed.

(** * Form validation *)

(** ** The matcher computes the language *)

Lemma re_class_inv (p : N → bool) (s : list N) :
  Re.lang (Re.Class p) s ↔ ∃ c, s = [c] ∧ p c = true.
Proof.
  split.
  - intros H. inversion H; subst. eauto.
  - intros (c & -> & Hc). now constructor.
Qed.

Lemma re_cat_inv (r1 r2 : Re.regex) (s : list N) :
  Re.lang (Re.Cat r1 r2) s ↔
  ∃ s1 s2, s = s1 ++ s2 ∧ Re.lang r1 s1 ∧ Re.lang r2 s2.
Proof.
  split.
  - intros H. inversion H; subst. eauto.
  - intros (s1 & s2 & -> & H1 & H2). now constructor.
Qed.

Lemma re_alt_inv (r1 r2 : Re.regex) (s : list N) :
  Re.lang (Re.Alt r1 r2) s ↔ Re.lang r1 s ∨ Re.lang r2 s.
Proof.
  split.
  - intros H. inversion H; subst; auto.
  - intros [H|H]; [now apply Re.lang_alt_l | now apply Re.lang_alt_r].
Qed.

Lemma re_void_inv (s : list N) : ¬ Re.lang Re.Void s.
Proof. intros H. inversion H. Qed.

Lemma re_eps_inv (s : list N) : Re.lang Re.Eps s ↔ s = [].
Proof.
  split.
  - intros H. now inversion H.
  - intros ->. constructor.
Qed.

Lemma re_nullable_spec (r : Re.regex) :
  Re.nullable r = true ↔ Re.lang r [].
Proof.
  induction r as [ | |p|r1 IH1 r2 IH2|r1 IH1 r2 IH2|r IH]; simpl.
  - split; [discriminate|]. intros H. now apply re_void_inv in H.
  - split; [constructor|reflexivity].
  - split; [discriminate|].
    intros H. apply re_class_inv in H as (c & Hc & _). discriminate Hc.
  - rewrite andb_true_iff, IH1, IH2, re_cat_inv. split.
    + intros [H1 H2]. exists [], []. auto.
    + intros (s1 & s2 & Heq & H1 & H2). symmetry in Heq.
      apply app_eq_nil in Heq as [-> ->]. auto.
  - now rewrite orb_true_iff, IH1, IH2, re_alt_inv.
  - split; [constructor|reflexivity].
Qed.

Lemma re_star_cons_inv (r : Re.regex) (c : N) (s : list N) :
  Re.lang (Re.Star r) (c :: s) →
  ∃ s1 s2, s = s1 ++ s2 ∧ Re.lang r (c :: s1) ∧ Re.lang (Re.Star r) s2.
Proof.
  intros H. remember (Re.Star r) as r' eqn:Hr. remember (c :: s) as w eqn:Hw.
  revert c s Hw.
  induction H as [ |p0 c0 Hp|r1 r2 s1 s2 H1 IH1 H2 IH2|r1 r2 s0 H0 IH0
                 |r1 r2 s0 H0 IH0|r0|r0 s1 s2 H1 IH1 H2 IH2];
    try discriminate Hr; intros c s Hw.
  - discriminate Hw.
  - injection Hr as ->. destruct s1 as [|c1 s1'].
    + simpl in Hw. now apply IH2.
    + simpl in Hw. injection Hw as -> <-. eauto.
Qed.

Lemma re_deriv_spec (r : Re.regex) (c : N) (s : list N) :
  Re.lang (Re.deriv c r) s ↔ Re.lang r (c :: s).
Proof.
  revert s.
  induction r as [ | |p|r1 IH1 r2 IH2|r1 IH1 r2 IH2|r IH]; intros s; simpl.
  - split; intros H; now apply re_void_inv in H.
  - split; intros H; [now apply re_void_inv in H|].
    apply re_eps_inv in H. discriminate H.
  - rewrite re_class_inv. destruct (p c) eqn:Hp.
    + rewrite re_eps_inv. split.
      * intros ->. eauto.
      * intros (c' & [= _ ->] & _). reflexivity.
    + split; [intros H; now apply re_void_inv in H|].
      intros (c' & [= <- _] & Hc'). congruence.
  - assert (Re.lang (Re.Cat (Re.deriv c r1) r2) s ↔
            ∃ s1 s2, s = s1 ++ s2 ∧ Re.lang r1 (c :: s1) ∧ Re.lang r2 s2)
      as Hd.
    { rewrite re_cat_inv. split; intros (s1 & s2 & Heq & H1 & H2);
        exists s1, s2; (split; [exact Heq|]); (split; [|exact H2]);
        now apply IH1. }
    assert (Re.lang (Re.Cat r1 r2) (c :: s) ↔
            (∃ s1 s2, s = s1 ++ s2 ∧ Re.lang r1 (c :: s1) ∧ Re.lang r2 s2)
            ∨ (Re.lang r1 [] ∧ Re.lang r2 (c :: s))) as Hc.
    { rewrite re_cat_inv. split.
      - intros (s1 & s2 & Heq & H1 & H2). destruct s1 as [|c1 s1'].
        + simpl in Heq. subst s2. auto.
        + simpl in Heq. injection Heq as -> ->. left. eauto.
      - intros [(s1 & s2 & -> & H1 & H2) | [H1 H2]].
        + exists (c :: s1), s2. auto.
        + exists [], (c :: s). auto. }
    rewrite Hc. destruct (Re.nullable r1) eqn:Hn.
    + rewrite re_alt_inv, Hd, IH2.
      apply re_nullable_spec in Hn. tauto.
    + rewrite Hd. split; [auto|].
      intros [H|[H _]]; [exact H|].
      apply re_nullable_spec in H. congruence.
  - now rewrite !re_alt_inv, IH1, IH2.
  - rewrite re_cat_inv. split.
    + intros (s1 & s2 & -> & H1 & H2). apply IH in H1.
      change (c :: s1 ++ s2) with ((c :: s1) ++ s2). now constructor.
    + intros H. apply re_star_cons_inv in H as (s1 & s2 & -> & H1 & H2).
      exists s1, s2. split; [reflexivity|]. split; [now apply IH | exact H2].
Qed.

Lemma re_test_spec (r : Re.regex) (s : list N) :
  Re.test r s = true ↔ Re.lang r s.
Proof.
  revert r. induction s as [|c s IH]; intros r; simpl.
  - apply re_nullable_spec.
  - rewrite IH. apply re_deriv_spec.
Qed.

(** ** What the patterns accept *)

Lemma re_star_class (p : N → bool) (s : list N) :
  Re.lang (Re.Star (Re.Class p)) s ↔ Forall (λ c, p c = true) s.
Proof.
  split.
  - intros H. remember (Re.Star (Re.Class p)) as r eqn:Hr.
    induction H as [ |p0 c0 Hp|r1 r2 s1 s2 H1 IH1 H2 IH2|r1 r2 s0 H0 IH0
                   |r1 r2 s0 H0 IH0|r0|r0 s1 s2 H1 IH1 H2 IH2];
      try discriminate Hr.
    + constructor.
    + injection Hr as ->. apply re_class_inv in H1 as (c & -> & Hc).
      constructor; [exact Hc | now apply IH2].
  - induction 1 as [|c s Hc _ IH]; [constructor|].
    change (c :: s) with ([c] ++ s).
    constructor; [now constructor | exact IH].
Qed.

Lemma re_plus_class (p : N → bool) (s : list N) :
  Re.lang (Re.Plus (Re.Class p)) s ↔ s ≠ [] ∧ Forall (λ c, p c = true) s.
Proof.
  unfold Re.Plus. split.
  - intros H. apply re_cat_inv in H as (s1 & s2 & -> & H1 & H2).
    apply re_class_inv in H1 as (c & -> & Hc). apply re_star_class in H2.
    split; [discriminate|]. now constructor.
  - intros [Hne Hall]. destruct s as [|c s]; [contradiction|].
    inversion Hall; subst. change (c :: s) with ([c] ++ s).
    constructor; [now constructor | now apply re_star_class].
Qed.

Lemma re_atLeast_class (n : nat) (p : N → bool) (s : list N) :
  Re.lang (Re.AtLeast n (Re.Class p)) s ↔
  (n ≤ length s)%nat ∧ Forall (λ c, p c = true) s.
Proof.
  revert s. induction n as [|n IH]; intros s; simpl.
  - rewrite re_star_class. split; [intros H; split; [lia|exact H] | tauto].
  - rewrite re_cat_inv. split.
    + intros (s1 & s2 & -> & H1 & H2).
      apply re_class_inv in H1 as (c & -> & Hc). apply IH in H2 as [Hl Hall].
      simpl. split; [lia|]. now constructor.
    + intros [Hl Hall]. destruct s as [|c s]; [simpl in Hl; lia|].
      inversion Hall; subst. exists [c], s. split; [reflexivity|].
      split; [now constructor|]. apply IH. simpl in Hl. split; [lia|assumption].
Qed.

(** X21. CONFIG.emailRegex accepts exactly the strings of the shape
    local @ domain . rest, where local, domain and rest are non-empty and
    contain neither white space nor '@'. So an address has exactly one '@',
    no white space anywhere (not even at the ends), and after the '@' a dot
    with something on both sides; further dots may stand anywhere. *)
Theorem email_regex_accepts (s : list N) :
  Re.test Form.emailRegex s = true ↔
  ∃ loc dom rest,
    s = loc ++ [Form.AT] ++ dom ++ [Form.DOT] ++ rest
    ∧ loc ≠ [] ∧ dom ≠ [] ∧ rest ≠ []
    ∧ Forall (λ c, Form.notSpaceNorAt c = true) (loc ++ dom ++ rest).
Proof.
  rewrite re_test_spec. unfold Form.emailRegex.
  rewrite re_cat_inv. split.
  - intros (loc & s1 & -> & Hloc & H1).
    apply re_cat_inv in H1 as (a & s2 & -> & Ha & H2).
    apply re_cat_inv in H2 as (dom & s3 & -> & Hdom & H3).
    apply re_cat_inv in H3 as (d & rest & -> & Hd & Hrest).
    apply re_class_inv in Ha as (ca & -> & Hca).
    apply re_class_inv in Hd as (cd & -> & Hcd).
    apply N.eqb_eq in Hca, Hcd. subst ca cd.
    apply re_plus_class in Hloc as [Hl1 Hl2], Hdom as [Hd1 Hd2],
      Hrest as [Hr1 Hr2].
    exists loc, dom, rest. repeat split; try assumption.
    rewrite !Forall_app. auto.
  - intros (loc & dom & rest & -> & Hl & Hd & Hr & Hall).
    rewrite !Forall_app in Hall. destruct Hall as (Hal & Had & Har).
    exists loc, ([Form.AT] ++ dom ++ [Form.DOT] ++ rest).
    split; [reflexivity|]. split; [now apply re_plus_class|].
    apply re_cat_inv. exists [Form.AT], (dom ++ [Form.DOT] ++ rest).
    split; [reflexivity|]. split; [now constructor|].
    apply re_cat_inv. exists dom, ([Form.DOT] ++ rest).
    split; [reflexivity|]. split; [now apply re_plus_class|].
    apply re_cat_inv. exists [Form.DOT], rest.
    split; [reflexivity|]. split; [now constructor|].
    now apply re_plus_class.
Qed.

(** X22. CONFIG.phoneRegex accepts exactly an optional leading '+' followed
    by ten or more characters, each a digit, white space, '-', '(' or ')'.
    No digit is required: ten dashes pass. *)
Theorem phone_regex_accepts (s : list N) :
  (Re.test Form.phoneRegex s = true ↔
   ∃ body, (s = body ∨ s = Form.PLUS :: body)
           ∧ (10 ≤ length body)%nat
           ∧ Forall (λ c, Form.phoneChar c = true) body)
  ∧ Re.test Form.phoneRegex (replicate 10 Form.MINUS) = true.
Proof.
  split; [|reflexivity].
  rewrite re_test_spec. unfold Form.phoneRegex, Re.Opt.
  rewrite re_cat_inv. split.
  - intros (s1 & body & -> & H1 & H2).
    apply re_atLeast_class in H2 as [Hl Hall].
    exists body. split; [|auto].
    apply re_alt_inv in H1 as [Hc|He].
    + apply re_class_inv in Hc as (c & -> & Hc). apply N.eqb_eq in Hc.
      subst c. now right.
    + apply re_eps_inv in He. subst s1. now left.
  - intros (body & [-> | ->] & Hl & Hall).
    + exists [], body. split; [reflexivity|].
      split; [apply Re.lang_alt_r; constructor|].
      now apply re_atLeast_class.
    + exists [Form.PLUS], body. split; [reflexivity|].
      split; [apply Re.lang_alt_l; now constructor|].
      now apply re_atLeast_class.
Qed.

(** ** Blank values *)

Lemma form_trimStart_all_space (s : list N) :
  Forall (λ c, Form.isWhiteSpace c = true) s → FormDom.trimStart s = [].
Proof.
  induction 1 as [|c s Hc _ IH]; [reflexivity|]. simpl. now rewrite Hc.
Qed.

Lemma form_trimStart_nil_inv (s : list N) :
  FormDom.trimStart s = [] → Forall (λ c, Form.isWhiteSpace c = true) s.
Proof.
  induction s as [|c s IH]; [constructor|]. simpl.
  destruct (Form.isWhiteSpace c) eqn:Hc; [|discriminate].
  intros H. constructor; auto.
Qed.

Lemma form_trimStart_suffix (s : list N) :
  ∃ pre, s = pre ++ FormDom.trimStart s
         ∧ Forall (λ c, Form.isWhiteSpace c = true) pre.
Proof.
  induction s as [|c s (pre & Hs & Hpre)]; [now exists []|]. simpl.
  destruct (Form.isWhiteSpace c) eqn:Hc.
  - exists (c :: pre). split; [simpl; f_equal; exact Hs | now constructor].
  - now exists [].
Qed.

Lemma form_blank_spec (s : list N) :
  FormDom.blank s = true ↔ Forall (λ c, Form.isWhiteSpace c = true) s.
Proof.
  unfold FormDom.blank, FormDom.trim. split.
  - intros H.
    destruct (reverse (FormDom.trimStart (reverse (FormDom.trimStart s))))
      as [|c t] eqn:E; [|discriminate].
    apply (f_equal reverse) in E. rewrite reverse_involutive in E.
    apply form_trimStart_nil_inv in E.
    apply Forall_reverse in E. rewrite reverse_involutive in E.
    destruct (form_trimStart_suffix s) as (pre & Hs & Hpre).
    rewrite Hs. apply Forall_app. auto.
  - intros H. rewrite (form_trimStart_all_space s H). reflexivity.
Qed.

(** X23. A value that is empty or all white space is never checked against
    a pattern: validateField rejects it with the 'required' message when the
    field is required, whatever the field's type, and accepts it when the
    field is optional, also in an email or tel field. *)
Theorem blank_value_verdict (f : FormDom.Field) :
  Forall (λ c, Form.isWhiteSpace c = true) (FormDom.value f) →
  FormDom.verdict f
  = if FormDom.required f then (false, FormDom.MsgRequired)
    else (true, FormDom.MsgEmpty).
Proof.
  intros H. apply form_blank_spec in H. unfold FormDom.verdict.
  rewrite H. simpl. rewrite !andb_false_r, andb_true_r. reflexivity.
Qed.

Lemma blank_value_verdict_witness :
  FormDom.verdict
    (FormDom.mkField false FormDom.TypeEmail [32; 9; 160]%N [] None)
  = (true, FormDom.MsgEmpty).
Proof.
  apply (blank_value_verdict
           (FormDom.mkField false FormDom.TypeEmail [32; 9; 160]%N [] None)).
  repeat constructor.
Defined.

(** ** Submitting *)

(** ** Submitting *)

Lemma form_frame_refl (p : FormDom.Page) : FormDom.frame p p.
Proof. repeat split. Qed.

Lemma form_frame_trans (p q r : FormDom.Page) :
  FormDom.frame p q → FormDom.frame q r → FormDom.frame p r.
Proof.
  unfold FormDom.frame.
  intros (-> & -> & -> & -> & -> & ->) (-> & -> & -> & -> & -> & ->).
  repeat split.
Qed.

Lemma form_updateFieldState_frame (g : option nat) (v : bool)
    (m : FormDom.Message) (p : FormDom.Page) :
  FormDom.frame p (FormDom.updateFieldState g v m p).
Proof.
  unfold FormDom.updateFieldState.
  destruct g as [g|]; [|apply form_frame_refl].
  destruct (FormDom.groups p !! g); [|apply form_frame_refl].
  destruct v; repeat split.
Qed.

Lemma form_validateField_spec (i : nat) (p : FormDom.Page) :
  fst (FormDom.validateField i p) = FormDom.validAt p i
  ∧ FormDom.frame p (snd (FormDom.validateField i p)).
Proof.
  unfold FormDom.validateField, FormDom.validAt.
  destruct (FormDom.fields p !! i) as [f|];
    [|split; [reflexivity | apply form_frame_refl]].
  destruct (FormDom.verdict f) as [v m]. simpl.
  split; [reflexivity | apply form_updateFieldState_frame].
Qed.

Lemma form_validAt_frame (p q : FormDom.Page) (i : nat) :
  FormDom.frame p q → FormDom.validAt q i = FormDom.validAt p i.
Proof. intros (Hf & _). unfold FormDom.validAt. now rewrite Hf. Qed.

Lemma form_validate_fold (p : FormDom.Page) (idxs : list nat) (acc : bool)
    (q : FormDom.Page) :
  FormDom.frame p q →
  let r := foldl (λ '(isFormValid, q0) i,
                    let '(ok, q') := FormDom.validateField i q0 in
                    (if ok then isFormValid else false, q'))
                 (acc, q) idxs in
  (fst r = true ↔ acc = true ∧ Forall (λ i, FormDom.validAt p i = true) idxs)
  ∧ FormDom.frame p (snd r).
Proof.
  revert acc q. induction idxs as [|i idxs IH]; intros acc q Hq r; subst r.
  - simpl. split; [|exact Hq]. split; [auto | tauto].
  - cbn [foldl].
    destruct (form_validateField_spec i q) as [Hv Hfr].
    destruct (FormDom.validateField i q) as [ok q'] eqn:E. simpl in Hv, Hfr.
    pose proof (form_frame_trans _ _ _ Hq Hfr) as Hq'.
    destruct (IH (if ok then acc else false) q' Hq') as [Hiff Hframe].
    split; [|exact Hframe].
    rewrite Hiff, Forall_cons, <- (form_validAt_frame p q i Hq), <- Hv.
    destruct ok, acc; simpl; intuition congruence.
Qed.

Lemma form_requiredFields_spec (p : FormDom.Page) (i : nat) :
  i ∈ FormDom.requiredFields p ↔
  ∃ f, FormDom.fields p !! i = Some f ∧ FormDom.required f = true.
Proof.
  unfold FormDom.requiredFields. rewrite list_elem_of_omap. split.
  - intros ([j f] & Hin & Hreq).
    apply elem_of_lookup_imap in Hin as (k & g & [= -> ->] & Hk).
    destruct (FormDom.required g) eqn:Hr; [|discriminate].
    injection Hreq as ->. eauto.
  - intros (f & Hf & Hr). exists (i, f). split.
    + apply elem_of_lookup_imap. eauto.
    + now rewrite Hr.
Qed.

Lemma form_validateForm_spec (p : FormDom.Page) :
  (fst (FormDom.validateForm p) = true ↔
   ∀ i f, FormDom.fields p !! i = Some f → FormDom.required f = true →
          fst (FormDom.verdict f) = true)
  ∧ FormDom.frame p (snd (FormDom.validateForm p)).
Proof.
  unfold FormDom.validateForm.
  destruct (form_validate_fold p (FormDom.requiredFields p) true p
              (form_frame_refl p)) as [Hiff Hframe].
  split; [|exact Hframe]. rewrite Hiff, Forall_forall. split.
  - intros [_ H] i f Hf Hr.
    specialize (H i (proj2 (form_requiredFields_spec p i)
                       (ex_intro _ f (conj Hf Hr)))).
    unfold FormDom.validAt in H. now rewrite Hf in H.
  - intros H. split; [reflexivity|]. intros i Hi.
    apply form_requiredFields_spec in Hi as (f & Hf & Hr).
    unfold FormDom.validAt. rewrite Hf. eauto.
Qed.

(** X24. handleFormSubmission starts a submission exactly when none is
    under way and every required field passes validateField. Optional
    fields are not looked at, so an optional email field with a malformed
    address does not hold the form back. While STATE.isFormSubmitting is
    set the call changes nothing at all. The values of the fields are never
    changed by it. *)
Theorem form_submission_gate (p : FormDom.Page) :
  (FormDom.isFormSubmitting p = true → FormDom.handleFormSubmission p = p)
  ∧ (FormDom.isFormSubmitting p = false →
       (FormDom.isFormSubmitting (FormDom.handleFormSubmission p) = true ↔
        ∀ i f, FormDom.fields p !! i = Some f →
               FormDom.required f = true →
               fst (FormDom.verdict f) = true)
       ∧ FormDom.fields (FormDom.handleFormSubmission p) = FormDom.fields p).
Proof.
  unfold FormDom.handleFormSubmission. split.
  - intros ->. reflexivity.
  - intros Hs. rewrite Hs.
    destruct (form_validateForm_spec p) as [Hiff (Hf & _ & Hflag & _)].
    destruct (FormDom.validateForm p) as [ok q]. simpl in Hiff, Hf, Hflag.
    rewrite <- Hiff. destruct ok; simpl.
    + split; [tauto | exact Hf].
    + split; [|exact Hf]. rewrite Hflag, Hs. tauto.
Qed.

Lemma form_submission_gate_witness :
  let optional := FormDom.mkField false FormDom.TypeEmail [120; 121]%N []
                                  None in
  let name := FormDom.mkField true FormDom.TypeOther [65]%N [] (Some 0%nat) in
  let p := FormDom.freshForm [optional; name]
             [FormDom.mkGroup false false false (Some FormDom.MsgInitial)]
             (Some (false, false)) true in
  fst (FormDom.verdict optional) = false
  ∧ FormDom.isFormSubmitting (FormDom.handleFormSubmission p) = true
  ∧ FormDom.handleFormSubmission (FormDom.handleFormSubmission p)
    = FormDom.handleFormSubmission p.
Proof.
  intros optional name p. split; [reflexivity|]. split.
  - apply (proj1 (proj2 (form_submission_gate p) eq_refl)).
    intros i f Hf Hr.
    destruct i as [|[|i]]; simpl in Hf; try discriminate Hf;
      injection Hf as <-; [discriminate Hr | reflexivity].
  - apply (proj1 (form_submission_gate (FormDom.handleFormSubmission p))).
    reflexivity.
Defined.

Lemma form_step_submitting (e : FormDom.event) (p : FormDom.Page) :
  FormDom.submitting p → FormDom.submitting (FormDom.step e p).
Proof.
  intros [Ht Hb].
  assert (∀ q, FormDom.submitBtn q = FormDom.submitBtn p →
               FormDom.isFormSubmitting q = FormDom.isFormSubmitting p →
               FormDom.submitTimers q = FormDom.submitTimers p →
               FormDom.submitting q) as Hsame.
  { intros q Hbtn Hflag Htim. unfold FormDom.submitting.
    rewrite Hbtn, Hflag, Htim. auto. }
  assert (∀ q, FormDom.frame p q → FormDom.submitting q) as Hframe.
  { intros q (_ & Hbtn & Hflag & Htim & _). now apply Hsame. }
  destruct e as [i|i v| | |k]; simpl.
  - apply Hframe, form_validateField_spec.
  - unfold FormDom.clearFieldError, FormDom.setValue.
    destruct (FormDom.fields p !! i) as [f|] eqn:Hf; simpl.
    + rewrite list_lookup_insert_eq by (eapply lookup_lt_Some; eauto). simpl.
      destruct (FormDom.fieldGroup f) as [g|]; [|now apply Hsame].
      destruct (FormDom.groups p !! g); now apply Hsame.
    + rewrite Hf. now apply Hsame.
  - unfold FormDom.handleFormSubmission.
    destruct (FormDom.isFormSubmitting p) eqn:Hs;
      [apply Hframe, form_frame_refl|].
    destruct (form_validateForm_spec p) as [_ Hfr].
    destruct (FormDom.validateForm p) as [ok q]. simpl in Hfr.
    destruct ok; simpl; [|now apply Hframe].
    destruct Hfr as (_ & Hbtn & _ & Htim & _).
    split; simpl.
    + now rewrite Htim, Ht.
    + intros _. rewrite Hbtn. destruct (FormDom.submitBtn p); auto.
  - unfold FormDom.submitTimerFires.
    destruct (FormDom.submitTimers p) as [|n] eqn:Hn;
      [apply Hframe, form_frame_refl|].
    split; simpl.
    + destruct (FormDom.isFormSubmitting p); congruence.
    + discriminate.
  - apply Hframe. unfold FormDom.shakeTimerFires.
    destruct (FormDom.shakeTimers p !! k); repeat split.
Qed.

(** X25. From page load on, after any sequence of blurs, inputs, submits
    and timeouts: a submission is under way exactly while exactly one
    2000 ms timeout is pending (never two, and never none, so the flag is
    always cleared again), and during it the submit button, if the form has
    one, is loading and disabled. *)
Theorem form_one_submission_at_a_time
    (fs : list FormDom.Field) (gs : list FormDom.Group)
    (btn : option (bool * bool)) (manager : bool)
    (es : list FormDom.event) :
  let p := FormDom.run es (FormDom.freshForm fs gs btn manager) in
  FormDom.submitTimers p
  = (if FormDom.isFormSubmitting p then 1%nat else 0%nat)
  ∧ (FormDom.isFormSubmitting p = true →
     FormDom.submitBtn p = None ∨ FormDom.submitBtn p = Some (true, true)).
Proof.
  intros p. subst p.
  assert (FormDom.submitting (FormDom.freshForm fs gs btn manager)) as H0.
  { split; [reflexivity|]. discriminate. }
  revert H0. generalize (FormDom.freshForm fs gs btn manager).
  induction es as [|e es IH]; intros p Hp; [exact Hp|].
  unfold FormDom.run; simpl. apply IH. now apply form_step_submitting.
Qed.
